(** * AIY face-capture appliance: services.py

    A shallow embedding of [services.py]: the bounding-box geometry, the
    generic [Service] worker (a queue drained by one consumer thread), and the
    three services built on it ([Photographer], [Animator], [Player]).

    Numbers.  Python multiplies and divides ints and floats here; the
    properties below are stated "for all reals", so coordinates, scores and
    scale factors are rationals ([Q]): exact, and they compute.  Rounding of
    binary floating point is outside this model.

    Threads.  The consumer thread and its callers are interleaved by a
    schedule: a list of atomic actions, executed by [exec].  An action whose
    thread is blocked (a [get] on an empty queue, a [join] on a live thread)
    leaves the state unchanged. *)

From Stdlib Require Import List Bool Arith Lia String Ascii ZArith QArith Qround Lqa.
Import ListNotations.

Close Scope Q_scope.
Local Open Scope nat_scope.
Local Open Scope list_scope.

(** ** Bounding-box geometry *)

Module Geometry.

(** A Python 4-tuple [(x, y, w, h)]. *)
Definition Box : Type := (Q * Q * Q * Q)%type.

(** [scale_bounding_box], lines 49-51. *)
Definition scale_bounding_box (bounding_box : Box) (scale_x scale_y : Q) : Box :=
  let '(x, y, w, h) := bounding_box in
  (x * scale_x, y * scale_y, w * scale_x, h * scale_y)%Q.

(** [bounding_extent_to_corners], lines 54-60.  [image_size] is a parameter
    of the source function that its body never reads. *)
Definition bounding_extent_to_corners (bounding_box : Box) (image_size : Z * Z) : Box :=
  let '(x, y, width, height) := bounding_box in
  let left := x in
  let upper := y in
  let right := (x + width)%Q in
  let lower := (y + height)%Q in
  (left, upper, right, lower).

(** Component-wise equality of rationals as numbers ([1#2] and [2#4] are the
    same number but different terms). *)
Definition box_eq (a b : Box) : Prop :=
  let '(a1, a2, a3, a4) := a in
  let '(b1, b2, b3, b4) := b in
  (a1 == b1 /\ a2 == b2 /\ a3 == b3 /\ a4 == b4)%Q.

(** A corner box lies inside an image of the given size. *)
Definition within_image (corners : Box) (image_size : Z * Z) : Prop :=
  let '(x0, y0, x1, y1) := corners in
  (0 <= x0 /\ 0 <= y0 /\
   x1 <= inject_Z (fst image_size) /\ y1 <= inject_Z (snd image_size))%Q.

End Geometry.

(** ** The Service worker: a queue and one consumer thread *)

Module Worker.

(** Where the consumer thread stands in [_run] (lines 70-77). *)
Inductive Thread (Req : Type) : Type :=
| Waiting                 (* at [self._requests.get()], line 72 *)
| Processing (r : Req)    (* [request] is bound to [r]; in [self.process(request)], line 76 *)
| ShuttingDown            (* the sentinel was dequeued; in [self.shutdown()], line 74 *)
| Finished                (* left the loop through [break]: the thread function returned *)
| Died.                   (* a hook raised; the exception ended the thread *)

Arguments Waiting {Req}.
Arguments Processing {Req} r.
Arguments ShuttingDown {Req}.
Arguments Finished {Req}.
Arguments Died {Req}.

(** What happened, oldest first.  The history is not program state: it only
    lets the properties speak about the past. *)
Inductive Event (Req : Type) : Type :=
| EvPut (x : option Req)            (* [self._requests.put(x)] *)
| EvGet (x : option Req)            (* [self._requests.get()] returned [x] *)
| EvProcess (r : Req) (ok : bool)   (* [self.process(r)] ran; [ok = false]: it raised *)
| EvShutdown (ok : bool)            (* [self.shutdown()] ran *)
| EvCloseCall                       (* a caller entered [close()] *)
| EvCloseReturn.                    (* a caller's [close()] returned *)

Arguments EvPut {Req} x.
Arguments EvGet {Req} x.
Arguments EvProcess {Req} r ok.
Arguments EvShutdown {Req} ok.
Arguments EvCloseCall {Req}.
Arguments EvCloseReturn {Req}.

(** A service object together with its thread.  A queue item is [Some r] for
    a request and [None] for Python's [None], the termination sentinel.
    [hooks] is whatever the subclass's [process] and [shutdown] read and
    write. *)
Record State (Req S : Type) : Type := mkState {
  _requests : list (option Req);     (* [queue.Queue()], head is dequeued next *)
  unfinished_tasks : nat;            (* the queue's counter behind [task_done] *)
  _thread : Thread Req;
  hooks : S;
  joining : nat;                     (* callers blocked in [self._thread.join()] *)
  history : list (Event Req)
}.

Arguments mkState {Req S}.
Arguments _requests {Req S} s.
Arguments unfinished_tasks {Req S} s.
Arguments _thread {Req S} s.
Arguments hooks {Req S} s.
Arguments joining {Req S} s.
Arguments history {Req S} s.

(** The moves of the threads.  [submit] is one atomic put.  [close] is two:
    the put of the sentinel, and the return from [join]. *)
Inductive Action (Req : Type) : Type :=
| Submit (x : option Req)   (* a caller runs [submit(x)] *)
| CloseCall                 (* a caller runs line 89 of [close()] and reaches [join] *)
| CloseReturn               (* a caller's [join] returns, line 90 *)
| Get                       (* the consumer runs line 72 *)
| Run.                      (* the consumer runs the hook it is in, to its end *)

Arguments Submit {Req} x.
Arguments CloseCall {Req}.
Arguments CloseReturn {Req}.
Arguments Get {Req}.
Arguments Run {Req}.

Definition terminated {Req : Type} (t : Thread Req) : bool :=
  match t with
  | Finished | Died => true
  | _ => false
  end.

Section Service.

Variables Req S : Type.

(** The two hooks a subclass overrides.  [None] stands for a raised
    exception. *)
Variable process : Req -> S -> option S.
Variable shutdown : S -> option S.

(** [__init__], lines 65-68: an empty queue, and the thread started. *)
Definition __init__ (s0 : S) : State Req S :=
  mkState [] 0 Waiting s0 0 [].

(** [queue.Queue.put] on an unbounded queue: it never blocks. *)
Definition put (x : option Req) (st : State Req S) : State Req S :=
  mkState (_requests st ++ [x]) (Datatypes.S (unfinished_tasks st)) (_thread st)
          (hooks st) (joining st) (history st ++ [EvPut x]).

(** [submit], lines 85-86. *)
Definition submit (request : option Req) (st : State Req S) : State Req S :=
  put request st.

(** [close], line 89: the sentinel is enqueued, then the caller waits. *)
Definition close_call (st : State Req S) : State Req S :=
  let st' := put None st in
  mkState (_requests st') (unfinished_tasks st') (_thread st') (hooks st')
          (Datatypes.S (joining st')) (history st' ++ [EvCloseCall]).

(** [close], line 90: [join] returns once the thread has ended, for whatever
    reason; until then the caller stays blocked. *)
Definition close_return (st : State Req S) : State Req S :=
  match joining st with
  | O => st
  | Datatypes.S j =>
      if terminated (_thread st)
      then mkState (_requests st) (unfinished_tasks st) (_thread st) (hooks st)
                   j (history st ++ [EvCloseReturn])
      else st
  end.

(** [_run], line 72 and the test of line 73. *)
Definition _run_get (st : State Req S) : State Req S :=
  match _thread st, _requests st with
  | Waiting, x :: rest =>
      mkState rest (unfinished_tasks st)
              (match x with Some r => Processing r | None => ShuttingDown end)
              (hooks st) (joining st) (history st ++ [EvGet x])
  | _, _ => st
  end.

(** [_run], lines 74-77: the hook, then [break] or [task_done].  When the
    hook raises the thread dies; [hooks] then keeps the state from before
    the call: what the hook changed before raising is not modelled, and of
    the state of a thread that died the properties say only that later
    moves leave it alone. *)
Definition _run_hook (st : State Req S) : State Req S :=
  match _thread st with
  | Processing r =>
      match process r (hooks st) with
      | Some s' =>
          mkState (_requests st) (pred (unfinished_tasks st)) Waiting s'
                  (joining st) (history st ++ [EvProcess r true])
      | None =>
          mkState (_requests st) (unfinished_tasks st) Died (hooks st)
                  (joining st) (history st ++ [EvProcess r false])
      end
  | ShuttingDown =>
      match shutdown (hooks st) with
      | Some s' =>
          mkState (_requests st) (unfinished_tasks st) Finished s'
                  (joining st) (history st ++ [EvShutdown true])
      | None =>
          mkState (_requests st) (unfinished_tasks st) Died (hooks st)
                  (joining st) (history st ++ [EvShutdown false])
      end
  | _ => st
  end.

Definition step (st : State Req S) (a : Action Req) : State Req S :=
  match a with
  | Submit x => submit x st
  | CloseCall => close_call st
  | CloseReturn => close_return st
  | Get => _run_get st
  | Run => _run_hook st
  end.

(** A schedule, run from left to right. *)
Definition exec (sched : list (Action Req)) (st : State Req S) : State Req S :=
  fold_left step sched st.

(** The consumer left alone for [n] turns of its loop. *)
Fixpoint drain (n : nat) : list (Action Req) :=
  match n with
  | O => []
  | Datatypes.S k => Run :: Get :: Run :: drain k
  end.

End Service.

Arguments __init__ {Req S} s0.
Arguments put {Req S} x st.
Arguments submit {Req S} request st.
Arguments close_call {Req S} st.
Arguments close_return {Req S} st.
Arguments _run_get {Req S} st.
Arguments _run_hook {Req S} process shutdown st.
Arguments step {Req S} process shutdown st a.
Arguments exec {Req S} process shutdown sched st.
Arguments drain {Req} n.

(** *** Readings of the history *)

Section History.

Context {Req : Type}.

(** Every item put on the queue, in order. *)
Definition submitted (h : list (Event Req)) : list (option Req) :=
  flat_map (fun e => match e with EvPut x => [x] | _ => [] end) h.

(** Every item the consumer dequeued, in order. *)
Definition taken (h : list (Event Req)) : list (option Req) :=
  flat_map (fun e => match e with EvGet x => [x] | _ => [] end) h.

(** Every item a hook was run for: [Some r] for [process(r)], [None] for
    [shutdown()]. *)
Definition handled (h : list (Event Req)) : list (option Req) :=
  flat_map (fun e => match e with
                     | EvProcess r _ => [Some r]
                     | EvShutdown _ => [None]
                     | _ => []
                     end) h.

(** The requests [process] was called with, in order. *)
Definition observed (h : list (Event Req)) : list Req :=
  flat_map (fun e => match e with EvProcess r _ => [r] | _ => [] end) h.

(** The requests [process] returned from. *)
Definition processed (h : list (Event Req)) : list Req :=
  flat_map (fun e => match e with EvProcess r true => [r] | _ => [] end) h.

Definition shutdown_calls (h : list (Event Req)) : nat :=
  List.length (flat_map (fun e => match e with EvShutdown _ => [e] | _ => [] end) h).

Definition close_calls (h : list (Event Req)) : nat :=
  List.length (flat_map (fun e => match e with EvCloseCall => [e] | _ => [] end) h).

Definition close_returns (h : list (Event Req)) : nat :=
  List.length (flat_map (fun e => match e with EvCloseReturn => [e] | _ => [] end) h).

(** The item the consumer holds: dequeued, its hook not yet run. *)
Definition in_hand (t : Thread Req) : list (option Req) :=
  match t with
  | Processing r => [Some r]
  | ShuttingDown => [None]
  | _ => []
  end.

(** What a schedule puts on the queue. *)
Definition puts_of (sched : list (Action Req)) : list (option Req) :=
  flat_map (fun a => match a with
                     | Submit x => [x]
                     | CloseCall => [None]
                     | _ => []
                     end) sched.

(** The requests of a list of queue items, sentinels dropped. *)
Definition requests_of (l : list (option Req)) : list Req :=
  flat_map (fun x => match x with Some r => [r] | None => [] end) l.

(** No caller of the schedule passes [None] to [submit] or calls [close]. *)
Definition sentinel_free (sched : list (Action Req)) : bool :=
  forallb (fun a => match a with
                    | Submit None | CloseCall => false
                    | _ => true
                    end) sched.

(** A sentinel in [l] is the last item of [l]. *)
Definition sentinel_last (l : list (option Req)) : Prop :=
  forall l1 l2, l = l1 ++ None :: l2 -> l2 = [].

(** The consumer has nothing left to do: its thread has ended, or it waits
    at an empty queue. *)
Definition settled {S : Type} (st : State Req S) : Prop :=
  terminated (_thread st) = true \/ (_thread st = Waiting /\ _requests st = []).

End History.

(** *** The contract of [close()] *)

Section Contract.

Context {Req S : Type}.
Variable process : Req -> S -> option S.
Variable shutdown : S -> option S.

(** What the description of [close()] promises, for a service started with
    hook state [s0]: [before] is everything that happens up to a call of
    [close()], [after] everything from then on. *)
Definition close_contract (s0 : S) (before after : list (Action Req)) : Prop :=
  let st1 := exec process shutdown before (__init__ s0) in
  let st2 := exec process shutdown (before ++ CloseCall :: after) (__init__ s0) in
  (* close() enqueues the sentinel *)
  _requests (close_call st1) = _requests st1 ++ [None]
  (* and does not return while the consumer is alive *)
  /\ (terminated (_thread st2) = false -> close_return st2 = st2)
  (* but does return once the consumer has been given its turns *)
  /\ 0 < close_returns
          (history (exec process shutdown
                         (drain (Datatypes.S (List.length (_requests st2))) ++ [CloseReturn])
                         st2))
  (* the sentinel is the last item the consumer dequeues *)
  /\ sentinel_last (taken (history st2))
  (* once close() has returned: *)
  /\ (0 < close_returns (history st2) ->
      (* the consumer has exited, *)
      terminated (_thread st2) = true
      (* having observed the sentinel *)
      /\ In None (taken (history st2))
      (* and invoked the shutdown hook; *)
      /\ shutdown_calls (history st2) = 1
      (* every request submitted before close() was processed, in order, *)
      /\ processed (history st2) = requests_of (submitted (history st1))
      (* and no request is processed from then on. *)
      /\ forall later : list (Action Req),
           observed (history (exec process shutdown later st2))
           = observed (history st2)).

End Contract.

(** *** Invariants of the worker *)

Section Invariants.

Context {Req S : Type}.

(** What holds of every state a service can reach, whatever its hooks do. *)
Record consistent (st : State Req S) : Prop := {
  (* every item put is dequeued or still queued, in order *)
  queue_conserved :
    submitted (history st) = taken (history st) ++ _requests st;
  (* every item dequeued went to a hook or is in the consumer's hand *)
  taken_accounted :
    taken (history st) = handled (history st) ++ in_hand (_thread st);
  (* a live consumer has not run [shutdown] *)
  alive_no_sentinel :
    terminated (_thread st) = false -> ~ In None (handled (history st));
  handled_sentinel_last :
    sentinel_last (handled (history st));
  (* [join] returned only after the thread ended *)
  returned_after_exit :
    0 < close_returns (history st) -> terminated (_thread st) = true;
  joiners_accounted :
    joining st + close_returns (history st) = close_calls (history st);
  close_put_sentinel :
    0 < close_calls (history st) -> In None (submitted (history st))
}.

(** What holds besides when [process] never raises. *)
Record unfailing (st : State Req S) : Prop := {
  (* the thread ended only through the sentinel *)
  exit_by_sentinel :
    terminated (_thread st) = true -> In None (handled (history st));
  all_returned :
    processed (history st) = observed (history st)
}.

(** The consumer did nothing between [st] and [st']. *)
Definition frozen (st st' : State Req S) : Prop :=
  _thread st' = _thread st
  /\ hooks st' = hooks st
  /\ taken (history st') = taken (history st)
  /\ handled (history st') = handled (history st)
  /\ observed (history st') = observed (history st)
  /\ processed (history st') = processed (history st)
  /\ shutdown_calls (history st') = shutdown_calls (history st).

End Invariants.

End Worker.

(** ** Photographer *)

Module Photo.

Import Geometry.

Local Open Scope string_scope.

(** A detection as [process] reads it: [face.bounding_box], [face.joy_score]. *)
Record Face : Type := mkFace {
  bounding_box : Box;
  joy_score : Q
}.

(** The camera handle: what [capture] will write into the stream, and the
    size of the picture those bytes decode to. *)
Record Camera : Type := mkCamera {
  resolution : Z * Z;
  frame : string
}.

(** The two kinds of message on the Photographer's queue, told apart in the
    source by [isinstance(message, tuple)] (line 143). *)
Inductive Message : Type :=
| Faces (faces : list Face) (frame_size : Z * Z)   (* [update_faces((faces, frame_size))] *)
| Shot (camera : Camera).                          (* [shoot(camera)] *)

(** What a file holds.  Pixels are not modelled: a cropped picture is named
    by the picture it was cut from and the corners given to [image.crop]. *)
Inductive Artifact : Type :=
| Original (data : string)
| Cropped (image_size : Z * Z) (corners : Box).

(** The fields [__init__] sets (lines 121-123). *)
Record Photographer : Type := mkPhotographer {
  _faces : list Face * (Z * Z);
  _format : string;
  _folder : string
}.

(** The object and the world its [process] touches: the clock read by
    [time.strftime], the user database read by [os.path.expanduser], and the
    file system ([writable] tells whether [open(name, 'wb')] succeeds;
    [disk] lists the files written, oldest first). *)
Record World : Type := mkWorld {
  self : Photographer;
  clock : string;
  home_of : string -> option string;
  writable : string -> bool;
  disk : list (string * Artifact)
}.

(** [__init__], lines 116-123; [None] is the failed [assert] of line 118,
    or the failed load of the font of line 120: [font_found] tells whether
    [ImageFont.truetype(FONT_FILE, size=25)] finds the file.  The font
    itself is only read by [_draw_face]. *)
Definition __init__ (font_found : bool) (format folder : string) : option Photographer :=
  if existsb (String.eqb format) ["jpeg"; "bmp"; "png"]
  then if font_found
       then Some (mkPhotographer ([], (0, 0)%Z) format folder)
       else None
  else None.

(** The pieces of [os.path.expanduser] (Python's posixpath): the user name
    runs from after the tilde to the first slash. *)
Fixpoint until_slash (s : string) : string * string :=
  match s with
  | EmptyString => (EmptyString, EmptyString)
  | String c s' =>
      if Ascii.eqb c "/" then (EmptyString, s)
      else let '(name, tail) := until_slash s' in (String c name, tail)
  end.

(** [userhome.rstrip('/')]. *)
Fixpoint rstrip_slash (s : string) : string :=
  match s with
  | EmptyString => EmptyString
  | String c s' =>
      match rstrip_slash s' with
      | EmptyString => if Ascii.eqb c "/" then EmptyString else String c EmptyString
      | t => String c t
      end
  end.

(** [os.path.expanduser]: a path that does not start with a tilde is returned
    as it is; otherwise the tilde and user name are replaced by that user's
    home directory, when [home] knows one (the empty name is the current
    user). *)
Definition expanduser (home : string -> option string) (path : string) : string :=
  match path with
  | String "~"%char rest =>
      let '(name, tail) := until_slash rest in
      match home name with
      | None => path
      | Some userhome =>
          match rstrip_slash userhome ++ tail with
          | EmptyString => "/"
          | p => p
          end
      end
  | _ => path
  end.

(** [_make_filename], lines 127-129. *)
Definition _make_filename (w : World) (timestamp suffix : string) : string :=
  let path :=
    if (0 <? String.length suffix)%nat
    then _folder (self w) ++ "/" ++ timestamp ++ "_" ++ suffix ++ "." ++ _format (self w)
    else _folder (self w) ++ "/" ++ timestamp ++ suffix ++ "." ++ _format (self w) in
  expanduser (home_of w) path.

(** [with open(filename, 'wb') as file: file.write(...)] and
    [image.save(filename)]: [None] when the file cannot be opened. *)
Definition write (filename : string) (a : Artifact) (w : World) : option World :=
  if writable w filename
  then Some (mkWorld (self w) (clock w) (home_of w) (writable w)
                     (disk w ++ [(filename, a)])%list)
  else None.

(** Python's [a / b] on two ints; [None] is ZeroDivisionError.  The quotient
    is the exact rational: the rounding of the float Python computes is not
    modelled, so only properties that survive rounding are stated of it. *)
Definition truediv (a b : Z) : option Q :=
  if (b =? 0)%Z then None else Some (inject_Z a / inject_Z b)%Q.

(** Line 168. *)
Definition scale_factors (image_size frame_size : Z * Z) : option (Q * Q) :=
  match truediv (fst image_size) (fst frame_size) with
  | None => None
  | Some scale_x =>
      match truediv (snd image_size) (snd frame_size) with
      | None => None
      | Some scale_y => Some (scale_x, scale_y)
      end
  end.

(** Lines 170-171: the corners handed to [image.crop] for one face. *)
Definition crop_corners (image_size : Z * Z) (scale_x scale_y : Q) (face : Face) : Box :=
  let scaled := scale_bounding_box (bounding_box face) scale_x scale_y in
  bounding_extent_to_corners scaled image_size.

(** The loop of lines 169-173.  It carries [image2], which every turn
    overwrites, and the faces drawn so far on [image] by [_draw_face]. *)
Definition crop_loop (image_size : Z * Z) (scale_x scale_y : Q) (faces : list Face)
  : option Artifact * list Face :=
  fold_left
    (fun (acc : option Artifact * list Face) face =>
       let image2 := Cropped image_size (crop_corners image_size scale_x scale_y face) in
       (Some image2, (snd acc ++ [face])%list))
    faces (None, []).

(** [process], lines 142-176.  The annotated picture is drawn and never
    saved (line 175 is commented out); [image2.save] of line 176 stands after
    the loop. *)
Definition process (message : Message) (w : World) : option World :=
  match message with
  | Faces faces frame_size =>
      Some (mkWorld (mkPhotographer (faces, frame_size) (_format (self w)) (_folder (self w)))
                    (clock w) (home_of w) (writable w) (disk w))
  | Shot camera =>
      let timestamp := clock w in
      let stream := frame camera in
      let filename := _make_filename w timestamp "" in
      match write filename (Original stream) w with
      | None => None
      | Some w1 =>
          let '(faces, frame_size) := _faces (self w1) in
          match faces with
          | [] => Some w1
          | _ :: _ =>
              let filename2 := _make_filename w1 timestamp "cropped" in
              let image_size := resolution camera in
              match scale_factors image_size frame_size with
              | None => None
              | Some (scale_x, scale_y) =>
                  match fst (crop_loop image_size scale_x scale_y faces) with
                  | Some image2 => write filename2 image2 w1
                  | None => None
                  end
              end
          end
      end
  end.

(** The default [shutdown] of [Service] (lines 82-83). *)
Definition shutdown (w : World) : option World := Some w.

(** [update_faces], lines 178-179, and [shoot], lines 181-182. *)
Definition update_faces (faces : list Face * (Z * Z))
    (st : Worker.State Message World) : Worker.State Message World :=
  Worker.submit (Some (Faces (fst faces) (snd faces))) st.

Definition shoot (camera : Camera)
    (st : Worker.State Message World) : Worker.State Message World :=
  Worker.submit (Some (Shot camera)) st.

Definition is_cropped (f : string * Artifact) : bool :=
  match snd f with Cropped _ _ => true | Original _ => false end.

Definition cropped_files (w : World) : list (string * Artifact) :=
  filter is_cropped (disk w).

Definition original_files (w : World) : list (string * Artifact) :=
  filter (fun f => negb (is_cropped f)) (disk w).

(** What the consumer does with the two messages [capture_loop] sends for
    one detection cycle ([update_faces] then [shoot], face_cap.py lines
    55-56). *)
Definition update_then_shoot (faces : list Face) (frame_size : Z * Z)
    (camera : Camera) (w : World) : option World :=
  match process (Faces faces frame_size) w with
  | Some w1 => process (Shot camera) w1
  | None => None
  end.

(** [path.startswith('~')]. *)
Definition starts_with_tilde (path : string) : bool :=
  match path with
  | String c _ => Ascii.eqb c "~"
  | EmptyString => false
  end.

(** [_<suffix>] when there is a suffix, nothing otherwise. *)
Definition suffix_part (suffix : string) : string :=
  match suffix with
  | EmptyString => EmptyString
  | _ => "_" ++ suffix
  end.

(** A world with a working disk and nothing written yet. *)
Definition fresh (p : Photographer) (now : string) : World :=
  mkWorld p now (fun _ => None) (fun _ => true) [].

(** Modelled from the spec: the imaging library is not part of the sources;
    the spec says the corners are rounded to the nearest pixel for the crop
    call. *)
Definition nearest_pixel (q : Q) : Z := Qfloor (q + (1 # 2)).

End Photo.

(** ** Animator *)

Module Lights.

Definition Color : Type := (Q * Q * Q)%type.

Definition JOY_COLOR : Color := (255, 70, 0)%Q.
Definition SAD_COLOR : Color := (0, 0, 64)%Q.

(** What [Leds.update] was last given: [Leds.rgb_off()] or [Leds.rgb_on(c)]. *)
Inductive Channels : Type :=
| rgb_off
| rgb_on (c : Color).

(** Modelled from the spec: [Color.blend] belongs to the [aiy.leds] package,
    which is not part of the sources; the spec gives it as the component-wise
    interpolation [joy*(1-score) + sad*score]. *)
Definition blend (joy sad : Color) (score : Q) : Color :=
  let '(j1, j2, j3) := joy in
  let '(s1, s2, s3) := sad in
  (j1 * (1 - score) + s1 * score,
   j2 * (1 - score) + s2 * score,
   j3 * (1 - score) + s3 * score)%Q.

Definition color_eq (a b : Color) : Prop :=
  let '(a1, a2, a3) := a in
  let '(b1, b2, b3) := b in
  (a1 == b1 /\ a2 == b2 /\ a3 == b3)%Q.

(** A component moves in one direction only as the score grows: upwards
    when its value at 1 is above its value at 0, downwards otherwise. *)
Definition monotone (f : Q -> Q) : Prop :=
  forall s t : Q, (s <= t)%Q ->
    ((f 0 <= f 1)%Q -> (f s <= f t)%Q) /\ ((f 1 <= f 0)%Q -> (f t <= f s)%Q).

(** A component is a straight line through its values at 0 and 1. *)
Definition affine (f : Q -> Q) : Prop :=
  forall s : Q, (f s == f 0 + s * (f 1 - f 0))%Q.

Definition red (c : Color) : Q := fst (fst c).
Definition green (c : Color) : Q := snd (fst c).
Definition blue (c : Color) : Q := snd c.

Section Animator.

(** The blend function the Animator is linked with. *)
Variable Color_blend : Color -> Color -> Q -> Color.

(** [Animator.process], lines 192-196, on a device whose [update] always
    returns; the state is what the LEDs show.  [Driven] below has the hooks
    on a device that can raise. *)
Definition process (joy_score : Q) (_leds : Channels) : option Channels :=
  if negb (Qle_bool joy_score 0)
  then Some (rgb_on (Color_blend JOY_COLOR SAD_COLOR joy_score))
  else Some rgb_off.

(** [Animator.shutdown], lines 198-199, on the same device. *)
Definition shutdown (_leds : Channels) : option Channels := Some rgb_off.

End Animator.

(** [update_joy_score], lines 201-202. *)
Definition update_joy_score (joy_score : Q)
    (st : Worker.State Q Channels) : Worker.State Q Channels :=
  Worker.submit (Some joy_score) st.

End Lights.

(** ** Animator on a device that can fail *)

Module Driven.

Import Lights.

Section Device.

(** The two calls of the hooks into the [aiy.leds] package: [Color.blend],
    and [self._leds.update], which is given the pattern to show; [update]
    tells, from what the LEDs show and the pattern, whether the call
    returns.  [None] and [false] stand for a raise. *)
Variable Color_blend : Color -> Color -> Q -> option Color.
Variable update : Channels -> Channels -> bool.

(** [Animator.process], lines 192-196; the state is what the LEDs were last
    set to. *)
Definition process (joy_score : Q) (_leds : Channels) : option Channels :=
  if negb (Qle_bool joy_score 0)
  then match Color_blend JOY_COLOR SAD_COLOR joy_score with
       | Some c => if update _leds (rgb_on c) then Some (rgb_on c) else None
       | None => None
       end
  else if update _leds rgb_off then Some rgb_off else None.

(** [Animator.shutdown], lines 198-199. *)
Definition shutdown (_leds : Channels) : option Channels :=
  if update _leds rgb_off then Some rgb_off else None.

End Device.

End Driven.

(** ** Player *)

Module Tones.

(** [Player.process], lines 106-107: the state is the list of sequences the
    tone player was given. *)
Definition process (sound : list string) (played : list (list string))
  : option (list (list string)) :=
  Some (played ++ [sound]).

Definition shutdown (played : list (list string)) : option (list (list string)) :=
  Some played.

(** [play], lines 109-110. *)
Definition play (sound : list string)
    (st : Worker.State (list string) (list (list string)))
  : Worker.State (list string) (list (list string)) :=
  Worker.submit (Some sound) st.

End Tones.

(** ** face_cap.py: the constants of the capture loop *)

Module FaceCap.

Import Geometry Photo.

Local Open Scope string_scope.

Definition IMAGE_FORMAT : string := "jpeg".
Definition IMAGE_FOLDER : string := "./captures".

(** The camera of line 45, [resolution=(820, 616)], about to deliver [data]. *)
Definition camera (data : string) : Camera := mkCamera (820, 616)%Z data.

(** The Photographer of line 48 as [__init__] leaves it. *)
Definition photographer : Photographer :=
  mkPhotographer ([], (0, 0)%Z) IMAGE_FORMAT IMAGE_FOLDER.

(** The detection and frame geometry of the end-to-end scenario. *)
Definition scenario_face : Face := mkFace (10, 10, 50, 50)%Q (9 # 10).
Definition scenario_frame : Z * Z := (320, 240)%Z.

(** A second detection, for captures with more than one face. *)
Definition second_face : Face := mkFace (100, 20, 40, 60)%Q (1 # 2).

(** A world in which the captures folder does not exist (the [os.mkdir] of
    lines 124-125 of services.py is commented out), so no file can be
    opened. *)
Definition missing_folder (now : string) : World :=
  mkWorld photographer now (fun _ => None) (fun _ => false) [].

End FaceCap.

(** ** Schedules used as examples *)

Module Scenarios.

Import Worker.

(** A capture is requested, then a cache update; the consumer takes the
    first and runs it. *)
Definition shoot_then_update : list (Action Photo.Message) :=
  [ Submit (Some (Photo.Shot (FaceCap.camera "")));
    Submit (Some (Photo.Faces [FaceCap.scenario_face] FaceCap.scenario_frame));
    Get; Run ].

(** Two scores for the Animator, the second submitted while the first is
    being processed. *)
Definition two_scores : list (Action Q) :=
  [ Submit (Some (1 # 2)%Q); Get; Submit (Some (9 # 10)%Q) ].

(** The consumer works through both and the sentinel; then [join] returns. *)
Definition work_and_return : list (Action Q) :=
  [ Run; Get; Run; Get; Run; CloseReturn ].

(** [None] passed to [submit], and one more score behind it. *)
Definition none_then_score : list (Action Q) :=
  [ Submit None; Submit (Some (1 # 2)%Q) ].

(** One tone sequence in process while three more are submitted. *)
Definition overload : list (Action (list string)) :=
  [ Submit (Some ["E6q"; "C6q"]%string); Get;
    Submit (Some ["C5q"]%string); Submit (Some ["E5q"]%string);
    Submit (Some ["C6q"]%string) ].

End Scenarios.

(** ** The worker seen from its hooks *)

Module Sequential.

Import Worker.

Section Replay.

Context {Req S : Type}.
Variable process : Req -> S -> option S.

(** [process] called on the requests of a list, one after the other, with
    nothing in between; [None] when one of the calls raises. *)
Fixpoint replay (rs : list Req) (s : S) : option S :=
  match rs with
  | [] => Some s
  | r :: rest =>
      match process r s with
      | Some s' => replay rest s'
      | None => None
      end
  end.

End Replay.

Section Accounts.

Context {Req S : Type}.
Variable process : Req -> S -> option S.
Variable shutdown : S -> option S.

(** The hooks' state is what the processed requests made of the initial
    state [s0], and [shutdown] after them once the thread has finished. *)
Definition hook_state (s0 : S) (st : State Req S) : Prop :=
  match _thread st with
  | Finished =>
      exists s, replay process (processed (history st)) s0 = Some s
                /\ shutdown s = Some (hooks st)
  | _ => replay process (processed (history st)) s0 = Some (hooks st)
  end.

(** The queue's counter of unfinished tasks: one up for every put, one down
    for every request [process] returned from. *)
Definition tasks_accounted (st : State Req S) : Prop :=
  unfinished_tasks st + List.length (processed (history st))
  = List.length (submitted (history st)).

(** No call of [process] has raised, and the thread has not died. *)
Definition unraised (st : State Req S) : Prop :=
  processed (history st) = observed (history st) /\ _thread st <> Died.

(** While the thread is alive every call of [process] has returned; and a
    thread that died without ever running [shutdown] died in [process]: the
    requests it was called with cannot be processed one after the other
    without a raise. *)
Definition raise_recorded (s0 : S) (st : State Req S) : Prop :=
  (terminated (_thread st) = false ->
   processed (history st) = observed (history st))
  /\ (_thread st = Died -> ~ In None (handled (history st)) ->
      replay process (observed (history st)) s0 = None).

(** What the description of the queue promises of a service started with
    hook state [s0], for the callers and consumer moves of [sched]: the
    requests [process] is called with are the first of those submitted, in
    order; every item put is dequeued or still queued; and a consumer given
    its turns has called [process] with every submitted request. *)
Definition fifo_contract (s0 : S) (sched : list (Action Req)) : Prop :=
  let st := exec process shutdown sched (__init__ s0) in
  let st' := exec process shutdown
                  (drain (Datatypes.S (List.length (_requests st)))) st in
  (exists rest, puts_of sched = map Some (observed (history st)) ++ rest)
  /\ puts_of sched = taken (history st) ++ _requests st
  /\ observed (history st') = requests_of (puts_of sched)
  /\ _requests st' = [].

End Accounts.

(** The requests of a list of queue items that stand before its first
    sentinel. *)
Fixpoint before_sentinel {Req : Type} (l : list (option Req)) : list Req :=
  match l with
  | Some r :: rest => r :: before_sentinel rest
  | _ => []
  end.

(** [join] returns for each of [n] blocked callers. *)
Fixpoint release {Req : Type} (n : nat) : list (Action Req) :=
  match n with
  | O => []
  | Datatypes.S k => CloseReturn :: release k
  end.

(** A caller's [close()] from start to end, and [__exit__] (lines 95-96),
    which is [close()]. *)
Definition close {Req : Type} : list (Action Req) := [CloseCall; CloseReturn].

Definition __exit__ {Req : Type} : list (Action Req) := close.

End Sequential.

(** ** Drawing the annotation *)

Module Draw.

Import Geometry Photo.

(** Python's [range(a, b)] on ints. *)
Definition range (a b : Z) : list Z :=
  map (fun k => (a + Z.of_nat k)%Z) (seq 0 (Z.to_nat (b - a))).

Inductive Paint : Type := white | black.

(** The calls made on the [ImageDraw] object. *)
Inductive DrawOp : Type :=
| rectangle (xy : Box) (fill outline : option Paint)
| text (xy : Q * Q) (label : string) (fill : Paint).

(** [draw_rectangle], lines 43-46; [None] is the failed [assert].  Python
    reads [-border // 2] as [(-border) // 2], with floor division. *)
Definition draw_rectangle (x0 y0 x1 y1 : Q) (border : Z) (fill outline : option Paint)
  : option (list DrawOp) :=
  if (border mod 2 =? 1)%Z
  then Some (map (fun i : Z =>
                    rectangle (x0 + inject_Z i, y0 + inject_Z i,
                               x1 - inject_Z i, y1 - inject_Z i)%Q fill outline)
                 (range (- border / 2) (border / 2 + 1)))
  else None.

Section Font.

(** [self._font.getsize], and the text ['Joy: %.2f' % joy_score]: the font
    file and the formatting of floats are outside the sources. *)
Variable getsize : string -> Q * Q.
Variable joy_text : Q -> string.

(** [_draw_face], lines 131-140. *)
Definition _draw_face (face : Face) (scale_x scale_y : Q) : option (list DrawOp) :=
  let '(x, y, width, height) := scale_bounding_box (bounding_box face) scale_x scale_y in
  let label := joy_text (joy_score face) in
  let text_height := snd (getsize label) in
  let margin := 3%Q in
  let bottom := (y + height)%Q in
  let text_bottom := (bottom + margin + text_height + margin)%Q in
  match draw_rectangle x y (x + width)%Q bottom 3 None (Some white) with
  | None => None
  | Some frame =>
      match draw_rectangle x bottom (x + width)%Q text_bottom 3 (Some white) (Some white) with
      | None => None
      | Some strip =>
          Some (frame ++ strip
                ++ [text (x + 1 + margin, y + height + 1 + margin)%Q label black])
      end
  end.

End Font.

(** The box of a drawn rectangle. *)
Definition box_of (op : DrawOp) : option Box :=
  match op with
  | rectangle xy _ _ => Some xy
  | text _ _ _ => None
  end.

(** One corner box lies inside another. *)
Definition inside (inner outer : Box) : Prop :=
  let '(a0, b0, a1, b1) := inner in
  let '(c0, d0, c1, d1) := outer in
  (c0 <= a0 /\ d0 <= b0 /\ a1 <= c1 /\ b1 <= d1)%Q.

End Draw.

(** ** [Photographer.process] with its log and its partial effects *)

Module Traced.

Import Geometry Photo.

Local Open Scope string_scope.

(** The two lines a [stopwatch] writes (lines 35 and 40); the elapsed time
    of the second is not modelled. *)
Inductive LogLine : Type :=
| info_start (message : string)
| info_done (message : string).

Record Env : Type := mkEnv {
  world : World;
  logged : list LogLine
}.

(** A piece of code that changes the world and the log and then returns
    ([Some]) or raises ([None]); what it did before raising stays done. *)
Definition Step (A : Type) : Type := Env -> Env * option A.

Definition log (line : LogLine) (e : Env) : Env :=
  mkEnv (world e) (logged e ++ [line])%list.

(** [stopwatch], lines 32-40: the [finally] writes the second line whether
    the body returned or raised, and the outcome of the body stands. *)
Definition stopwatch {A : Type} (message : string) (body : Step A) : Step A :=
  fun e =>
    let '(e', outcome) := body (log (info_start message) e) in
    (log (info_done message) e', outcome).

(** Writing a file inside a step. *)
Definition save (filename : string) (a : Artifact) : Step unit :=
  fun e =>
    match write filename a (world e) with
    | Some w' => (mkEnv w' (logged e), Some tt)
    | None => (e, None)
    end.

(** [process], lines 142-176.  The third stopwatch is given [filename], the
    name of the original (line 164). *)
Definition process (message : Message) : Step unit :=
  fun e =>
    match message with
    | Faces faces frame_size =>
        (mkEnv (mkWorld (mkPhotographer (faces, frame_size)
                                        (_format (self (world e)))
                                        (_folder (self (world e))))
                        (clock (world e)) (home_of (world e))
                        (writable (world e)) (disk (world e)))
               (logged e),
         Some tt)
    | Shot camera =>
        let timestamp := clock (world e) in
        let stream := frame camera in
        let '(e1, _) := stopwatch "Taking photo" (fun e0 => (e0, Some tt)) e in
        let filename := _make_filename (world e1) timestamp "" in
        match stopwatch ("Saving original " ++ filename)
                        (save filename (Original stream)) e1 with
        | (e2, None) => (e2, None)
        | (e2, Some _) =>
            let '(faces, frame_size) := _faces (self (world e2)) in
            match faces with
            | [] => (e2, Some tt)
            | _ :: _ =>
                let filename2 := _make_filename (world e2) timestamp "cropped" in
                let image_size := resolution camera in
                stopwatch ("Saving annotated " ++ filename)
                  (fun e3 =>
                     match scale_factors image_size frame_size with
                     | None => (e3, None)
                     | Some (scale_x, scale_y) =>
                         match fst (crop_loop image_size scale_x scale_y faces) with
                         | Some image2 => save filename2 image2 e3
                         | None => (e3, None)
                         end
                     end) e2
            end
        end
    end.

(** Every line that opens a stopwatch is followed at once by the line that
    closes it. *)
Fixpoint bracketed (lines : list LogLine) : bool :=
  match lines with
  | [] => true
  | info_start a :: info_done b :: rest => String.eqb a b && bracketed rest
  | _ => false
  end.

End Traced.

(** ** face_cap.py: the capture loop and [main] *)

Module Loop.

Import Photo.

Local Open Scope string_scope.

Definition BEEP_SOUND : list string := ["E6q"; "C6q"].
Definition SLEEP_SECONDS : Z := 600.

(** One result of [run_inference]: the faces and the frame size. *)
Definition Result : Type := (list Face * (Z * Z))%type.

(** What the control thread holds: the two services of lines 47-48 and the
    seconds it has slept. *)
Record Rig : Type := mkRig {
  player : Worker.State (list string) (list (list string));
  photographer : Worker.State Message World;
  slept : Z
}.

(** The body of the [for] loop, lines 53-59 (the [print]s left out). *)
Definition cycle (camera : Camera) (rig : Rig) (result : Result) : Rig :=
  match fst result with
  | [] => rig
  | _ :: _ =>
      mkRig (Tones.play BEEP_SOUND (player rig))
            (shoot camera (update_faces result (photographer rig)))
            (slept rig + SLEEP_SECONDS)
  end.

(** The loop of lines 52-59 over the results the inference delivers. *)
Definition capture_loop (camera : Camera) (results : list Result) (rig : Rig) : Rig :=
  fold_left (cycle camera) results rig.

(** The results that trigger a capture. *)
Definition triggering (results : list Result) : list Result :=
  filter (fun result => match fst result with [] => false | _ => true end) results.

(** The messages the loop sends to the Photographer. *)
Definition messages (camera : Camera) (results : list Result) : list Message :=
  flat_map (fun result => [Faces (fst result) (snd result); Shot camera])
           (triggering results).

(** What one capture adds to the disk when it succeeds: the original, and
    the crop of the last face of its own result. *)
Definition artifacts_of (camera : Camera) (result : Result) : list Artifact :=
  match scale_factors (resolution camera) (snd result) with
  | Some (sx, sy) =>
      [ Original (frame camera);
        Cropped (resolution camera)
                (crop_corners (resolution camera) sx sy
                              (last (fst result) (mkFace (0, 0, 0, 0)%Q 0%Q))) ]
  | None => []
  end.

(** How [capture_loop()] can end inside [main] (lines 65-74). *)
Inductive Ending : Type :=
| returned                       (* the inference stream ended *)
| keyboard_interrupt             (* KeyboardInterrupt *)
| exception (what : string)      (* a subclass of Exception *)
| base_exception (what : string).  (* SystemExit, GeneratorExit: not an Exception *)

(** What [sys.exit(main())] does: the exit status, or the exception that
    leaves [main]; whether the exception was logged; and whether the red
    blink was shown. *)
Record Report : Type := mkReport {
  status : option Z;
  uncaught : option string;
  exception_logged : bool;
  blinked_red : bool
}.

(** [main], lines 62-76.  [leds_open] tells whether [Leds()] of line 71 can
    be opened; when it cannot, the handler itself raises. *)
Definition main (ending : Ending) (leds_open : bool) : Report :=
  match ending with
  | returned => mkReport (Some 0%Z) None false false
  | keyboard_interrupt => mkReport (Some 0%Z) None false false
  | exception what =>
      if leds_open
      then mkReport (Some 0%Z) None true true
      else mkReport None (Some "Leds") true false
  | base_exception what => mkReport None (Some what) false false
  end.

End Loop.

(** ** More schedules used as examples *)

Module Runs.

Import Worker Photo.

(** Three results of the inference: one face, none, two faces. *)
Definition three_results : list Loop.Result :=
  [ ([FaceCap.scenario_face], FaceCap.scenario_frame);
    ([], FaceCap.scenario_frame);
    ([FaceCap.scenario_face; FaceCap.second_face], FaceCap.scenario_frame) ].

(** The control thread sends the messages of the three results while the
    consumer takes its turns in between. *)
Definition loop_with_consumer : list (Action Message) :=
  [ Submit (Some (Faces [FaceCap.scenario_face] FaceCap.scenario_frame));
    Get;
    Submit (Some (Shot (FaceCap.camera "")));
    Run;
    Submit (Some (Faces [FaceCap.scenario_face; FaceCap.second_face]
                        FaceCap.scenario_frame));
    Get;
    Submit (Some (Shot (FaceCap.camera ""))) ].

(** A cache update and a capture are submitted, the first already taken by
    the consumer. *)
Definition update_and_shot : list (Action Message) :=
  [ Submit (Some (Faces [FaceCap.scenario_face] FaceCap.scenario_frame));
    Get;
    Submit (Some (Shot (FaceCap.camera ""))) ].

(** The consumer works through both and the sentinel; then [join] returns. *)
Definition finish_and_return : list (Action Message) :=
  [ Run; Get; Run; Get; Run; CloseReturn ].

(** Two scores and a [close()] for the Animator, worked through. *)
Definition scores_and_close : list (Action Q) :=
  [ Submit (Some (9 # 10)%Q); Get; Run; Submit (Some 0%Q); CloseCall;
    Get; Run; Get; Run; CloseReturn ].

(** A cache update with a frame of width zero, then a capture. *)
Definition zero_frame_world : World :=
  mkWorld (mkPhotographer ([FaceCap.scenario_face], (0, 240)%Z)
                          FaceCap.IMAGE_FORMAT FaceCap.IMAGE_FOLDER)
          "2024-01-01_00.00.00" (fun _ => None) (fun _ => true) [].

(** Three scores for the Animator, all processed. *)
Definition three_scores : list (Action Q) :=
  [ Submit (Some (9 # 10)%Q); Submit (Some 0%Q); Get; Run; Get;
    Submit (Some (1 # 2)%Q); Run; Get; Run ].

End Runs.

(** * Properties *)

(** ** Geometry *)

Section GeometryProps.

Import Geometry.

Local Open Scope Q_scope.

(** C8. Scaling a box multiplies x and the width by the horizontal factor and
    y and the height by the vertical factor, for all numbers. *)
Theorem scale_bounding_box_linear :
  forall x y w h sx sy : Q,
    scale_bounding_box (x, y, w, h) sx sy = (x * sx, y * sy, w * sx, h * sy).
Proof.
  intros x y w h sx sy. unfold scale_bounding_box. reflexivity.
Qed.

(** Scaling twice is scaling by the products of the factors. *)
Lemma scale_bounding_box_compose :
  forall (b : Box) (sx sy tx ty : Q),
    box_eq (scale_bounding_box (scale_bounding_box b sx sy) tx ty)
           (scale_bounding_box b (sx * tx) (sy * ty)).
Proof.
  intros [[[x y] w] h] sx sy tx ty. simpl.
  repeat split; ring.
Qed.

(** Scaling by one changes nothing. *)
Lemma scale_bounding_box_one :
  forall b : Box, box_eq (scale_bounding_box b 1 1) b.
Proof.
  intros [[[x y] w] h]. simpl. repeat split; ring.
Qed.

(** C9. The corners of a box are (x, y, x+w, y+h) whatever image size is
    passed, so a box that reaches past the image keeps its corners outside
    the image. *)
Theorem corners_ignore_image_size :
  forall (x y w h : Q) (image_size : Z * Z),
    bounding_extent_to_corners (x, y, w, h) image_size = (x, y, x + w, y + h)
    /\ (forall other_size : Z * Z,
          bounding_extent_to_corners (x, y, w, h) other_size
          = bounding_extent_to_corners (x, y, w, h) image_size)
    /\ ~ within_image (bounding_extent_to_corners (800, 600, 50, 50) (820, 616)%Z)
                      (820, 616)%Z.
Proof.
  intros x y w h image_size. split; [reflexivity|]. split.
  - intros other_size. reflexivity.
  - unfold within_image, bounding_extent_to_corners. simpl.
    intros (_ & _ & Hright & _).
    apply Qle_bool_iff in Hright. vm_compute in Hright. discriminate.
Qed.

End GeometryProps.

(** ** Photographer *)

Section PhotoProps.

Import Geometry Photo.

Local Open Scope string_scope.

(** The Photographer of [capture_loop] is what [__init__] builds when the
    font is there. *)
Lemma init_photographer :
  __init__ true FaceCap.IMAGE_FORMAT FaceCap.IMAGE_FOLDER = Some FaceCap.photographer.
Proof. reflexivity. Qed.

(** A path that does not start with a tilde is left as it is. *)
Lemma expanduser_plain :
  forall home path, starts_with_tilde path = false -> expanduser home path = path.
Proof.
  intros home [|c rest]; [reflexivity|]. unfold starts_with_tilde, expanduser.
  intros Hc. destruct c as [[] [] [] [] [] [] [] []]; try reflexivity; discriminate.
Qed.

Lemma starts_with_tilde_folder :
  forall folder rest : string,
    starts_with_tilde (folder ++ "/" ++ rest) = starts_with_tilde folder.
Proof.
  intros [|c folder] rest; reflexivity.
Qed.

(** C7. File names are [<folder>/<timestamp>[_<suffix>].<format>], passed
    through [expanduser]; for a folder that does not start with a tilde that is
    the name itself, and for folder ./captures, format jpeg and timestamp
    2024-01-01_00.00.00 the original and cropped names are the two of the
    scenario. *)
Theorem make_filename_convention :
  forall (w : World) (timestamp suffix : string),
    _make_filename w timestamp suffix
    = expanduser (home_of w)
        (_folder (self w) ++ "/" ++ timestamp ++ suffix_part suffix ++ "." ++ _format (self w))
    /\ (starts_with_tilde (_folder (self w)) = false ->
        _make_filename w timestamp suffix
        = _folder (self w) ++ "/" ++ timestamp ++ suffix_part suffix ++ "." ++ _format (self w))
    /\ (self w = FaceCap.photographer ->
        _make_filename w "2024-01-01_00.00.00" ""
        = "./captures/2024-01-01_00.00.00.jpeg"
        /\ _make_filename w "2024-01-01_00.00.00" "cropped"
           = "./captures/2024-01-01_00.00.00_cropped.jpeg").
Proof.
  intros w timestamp suffix.
  assert (Hshape : _make_filename w timestamp suffix
    = expanduser (home_of w)
        (_folder (self w) ++ "/" ++ timestamp ++ suffix_part suffix ++ "." ++ _format (self w))).
  { unfold _make_filename. destruct suffix as [|c s]; reflexivity. }
  split; [exact Hshape|]. split.
  - intros Htilde. rewrite Hshape. apply expanduser_plain.
    rewrite starts_with_tilde_folder. exact Htilde.
  - intros Hself. unfold _make_filename. rewrite Hself. split; reflexivity.
Qed.

(** The scenario of C7 at a freshly constructed Photographer. *)
Lemma make_filename_convention_scenario :
  _make_filename (fresh FaceCap.photographer "2024-01-01_00.00.00") "2024-01-01_00.00.00" ""
  = "./captures/2024-01-01_00.00.00.jpeg"
  /\ _make_filename (fresh FaceCap.photographer "2024-01-01_00.00.00") "2024-01-01_00.00.00" "cropped"
     = "./captures/2024-01-01_00.00.00_cropped.jpeg".
Proof.
  exact (proj2 (proj2 (make_filename_convention
                         (fresh FaceCap.photographer "2024-01-01_00.00.00")
                         "2024-01-01_00.00.00" "")) eq_refl).
Defined.

(** The loop leaves in [image2] the crop of the last face only. *)
Lemma crop_loop_last :
  forall (image_size : Z * Z) (sx sy : Q) (faces : list Face) (face : Face),
    fst (crop_loop image_size sx sy (faces ++ [face])%list)
    = Some (Cropped image_size (crop_corners image_size sx sy face)).
Proof.
  intros image_size sx sy faces face. unfold crop_loop.
  rewrite fold_left_app. reflexivity.
Qed.

(** Every face is drawn on the annotated picture, which is never saved. *)
Lemma crop_loop_draws_all :
  forall (image_size : Z * Z) (sx sy : Q) (faces : list Face),
    snd (crop_loop image_size sx sy faces) = faces.
Proof.
  intros image_size sx sy faces. unfold crop_loop.
  assert (H : forall acc,
    snd (fold_left
      (fun (acc : option Artifact * list Face) face =>
         (Some (Cropped image_size (crop_corners image_size sx sy face)),
          (snd acc ++ [face])%list)) faces acc) = (snd acc ++ faces)%list).
  { induction faces as [|f faces IH]; intros acc; simpl.
    - now rewrite app_nil_r.
    - rewrite IH. simpl. now rewrite <- app_assoc. }
  apply (H (None, [])).
Qed.

(** C4, as amended. In the scenario (one detection with box (10,10,50,50),
    frame 320x240, picture 820x616) the scale factors are the quotients
    820/320 = 2.5625 and 616/240 = 2.5667 (to four decimals), the crop corners
    are (25.625, 25.6667, 153.75, 154), that is pixels (26, 26, 154, 154), and
    exactly two files are written: the original and one cropped. *)
Theorem capture_scenario :
  forall now data : string,
    exists (w : World) (corners : Box),
      update_then_shoot [FaceCap.scenario_face] FaceCap.scenario_frame
                        (FaceCap.camera data) (fresh FaceCap.photographer now) = Some w
      /\ scale_factors (820, 616)%Z FaceCap.scenario_frame
         = Some (inject_Z 820 / inject_Z 320, inject_Z 616 / inject_Z 240)%Q
      /\ (inject_Z 820 / inject_Z 320 == 2.5625)%Q
      /\ (2.56665 < inject_Z 616 / inject_Z 240 < 2.56675)%Q
      /\ disk w = [ ("./captures/" ++ now ++ ".jpeg", Original data);
                    ("./captures/" ++ now ++ "_cropped.jpeg", Cropped (820, 616)%Z corners) ]
      /\ corners = crop_corners (820, 616)%Z (inject_Z 820 / inject_Z 320)
                                (inject_Z 616 / inject_Z 240) FaceCap.scenario_face
      /\ box_eq corners (25.625, 77 # 3, 153.75, 154)%Q
      /\ (let '(x0, y0, x1, y1) := corners in
          (nearest_pixel x0, nearest_pixel y0, nearest_pixel x1, nearest_pixel y1))
         = (26, 26, 154, 154)%Z
      /\ List.length (original_files w) = 1%nat
      /\ List.length (cropped_files w) = 1%nat.
Proof.
  intros now data. eexists; eexists.
  split; [reflexivity|].
  split; [reflexivity|].
  split; [reflexivity|].
  split; [split; reflexivity|].
  split; [reflexivity|].
  split; [reflexivity|].
  split; [repeat split; reflexivity|].
  split; [reflexivity|].
  split; reflexivity.
Qed.

(** C4, as stated: no cropped file of the scenario has the corners
    (25.6, 25.6, 153.75, 153.75); the lower corner is 154 and the upper one
    25.6667. *)
Lemma capture_scenario_corners_differ :
  ~ (exists (w : World) (name : string) (corners : Box),
       update_then_shoot [FaceCap.scenario_face] FaceCap.scenario_frame
                         (FaceCap.camera "") (fresh FaceCap.photographer "2024-01-01_00.00.00")
       = Some w
       /\ In (name, Cropped (820, 616)%Z corners) (disk w)
       /\ box_eq corners (25.6, 25.6, 153.75, 153.75)%Q).
Proof.
  intros (w & name & corners & Hrun & Hin & Heq).
  vm_compute in Hrun. injection Hrun as <-.
  simpl in Hin. destruct Hin as [Hin|[Hin|[]]]; [discriminate|].
  injection Hin as _ <-.
  destruct Heq as (_ & _ & _ & Hlower).
  vm_compute in Hlower. discriminate.
Qed.

(** However many detections are cached, a capture that succeeds adds two
    files: the original, and the crop of the last detection. *)
Lemma shoot_writes_last_crop :
  forall (w : World) (camera : Camera) (faces : list Face) (face : Face)
         (frame_size : Z * Z) (sx sy : Q),
    _faces (self w) = ((faces ++ [face])%list, frame_size) ->
    scale_factors (resolution camera) frame_size = Some (sx, sy) ->
    writable w (_make_filename w (clock w) "") = true ->
    writable w (_make_filename w (clock w) "cropped") = true ->
    exists w' : World,
      process (Shot camera) w = Some w'
      /\ disk w'
         = (disk w
            ++ [ (_make_filename w (clock w) "", Original (frame camera));
                 (_make_filename w (clock w) "cropped",
                  Cropped (resolution camera)
                          (crop_corners (resolution camera) sx sy face)) ])%list.
Proof.
  intros w camera faces face frame_size sx sy Hfaces Hscale Horig Hcrop.
  unfold process, write. rewrite Horig. cbn [self]. rewrite Hfaces.
  destruct (faces ++ [face])%list as [|f fs] eqn:Hlist.
  { now destruct faces. }
  rewrite <- Hlist, Hscale, crop_loop_last.
  change (_make_filename
            (mkWorld (self w) (clock w) (home_of w) (writable w)
               (disk w ++ [(_make_filename w (clock w) "", Original (frame camera))]))
            (clock w) "cropped")
    with (_make_filename w (clock w) "cropped").
  cbn [writable]. rewrite Hcrop.
  eexists. split; [reflexivity|]. cbn [disk]. now rewrite <- app_assoc.
Qed.

(** C5 at two cached detections: the capture writes the original and one
    cropped file, not two; the cropped file holds the second face and the
    first face's crop is lost. *)
Theorem two_faces_one_cropped_file :
  exists w : World,
    update_then_shoot [FaceCap.scenario_face; FaceCap.second_face] FaceCap.scenario_frame
                      (FaceCap.camera "") (fresh FaceCap.photographer "2024-01-01_00.00.00")
    = Some w
    /\ List.length (cropped_files w) = 1%nat
    /\ List.length (disk w) = 2%nat
    /\ map snd (cropped_files w)
       = [ Cropped (820, 616)%Z
             (crop_corners (820, 616)%Z (inject_Z 820 / inject_Z 320)
                           (inject_Z 616 / inject_Z 240) FaceCap.second_face) ]
    /\ ~ In (Cropped (820, 616)%Z
               (crop_corners (820, 616)%Z (inject_Z 820 / inject_Z 320)
                             (inject_Z 616 / inject_Z 240) FaceCap.scenario_face))
            (map snd (disk w)).
Proof.
  eexists. split; [reflexivity|].
  split; [reflexivity|]. split; [reflexivity|]. split; [reflexivity|].
  simpl. intros [H|[H|[]]]; discriminate.
Qed.

End PhotoProps.

(** ** Animator *)

Section LightsProps.

Import Lights.

Local Open Scope Q_scope.

(** One component of the blend, as a function of the score. *)
Lemma component_affine :
  forall j d : Q, affine (fun s => j * (1 - s) + d * s).
Proof.
  intros j d s. ring.
Qed.

Lemma component_monotone :
  forall j d : Q, monotone (fun s => j * (1 - s) + d * s).
Proof.
  intros j d s t Hst. split; intros Hends.
  - assert (Hjd : j <= d) by (ring_simplify in Hends; exact Hends).
    assert (H : 0 <= (d - j) * (t - s)).
    { apply Qmult_le_0_compat; lra. }
    lra.
  - assert (Hdj : d <= j) by (ring_simplify in Hends; exact Hends).
    assert (H : 0 <= (j - d) * (t - s)).
    { apply Qmult_le_0_compat; lra. }
    lra.
Qed.

(** A score that is not positive switches the LEDs off, whatever blend
    function the Animator uses and whatever the LEDs showed. *)
Lemma process_off :
  forall (Color_blend : Color -> Color -> Q -> Color) (joy_score : Q) (leds : Channels),
    joy_score <= 0 -> process Color_blend joy_score leds = Some rgb_off.
Proof.
  intros Color_blend joy_score leds Hle. unfold process.
  apply Qle_bool_iff in Hle. rewrite Hle. reflexivity.
Qed.

(** A positive score shows the blend of the two colours. *)
Lemma process_on :
  forall (Color_blend : Color -> Color -> Q -> Color) (joy_score : Q) (leds : Channels),
    0 < joy_score ->
    process Color_blend joy_score leds
    = Some (rgb_on (Color_blend JOY_COLOR SAD_COLOR joy_score)).
Proof.
  intros Color_blend joy_score leds Hlt. unfold process.
  destruct (Qle_bool joy_score 0) eqn:Hle; [|reflexivity].
  apply Qle_bool_iff in Hle. lra.
Qed.

(** C6. The blend is joy at score 0 and sad at score 1; each component is
    joy*(1-score) + sad*score, a straight line that moves in one direction as
    the score grows; and a score of 0 or less switches the LEDs off whatever
    the blend is. *)
Theorem blend_and_leds :
  forall joy sad : Color,
    color_eq (blend joy sad 0) joy
    /\ color_eq (blend joy sad 1) sad
    /\ (forall score : Q,
          blend joy sad score
          = (red joy * (1 - score) + red sad * score,
             green joy * (1 - score) + green sad * score,
             blue joy * (1 - score) + blue sad * score))
    /\ (affine (fun s => red (blend joy sad s))
        /\ affine (fun s => green (blend joy sad s))
        /\ affine (fun s => blue (blend joy sad s)))
    /\ (monotone (fun s => red (blend joy sad s))
        /\ monotone (fun s => green (blend joy sad s))
        /\ monotone (fun s => blue (blend joy sad s)))
    /\ (forall (Color_blend : Color -> Color -> Q -> Color) (score : Q) (leds : Channels),
          score <= 0 -> process Color_blend score leds = Some rgb_off).
Proof.
  intros [[j1 j2] j3] [[d1 d2] d3].
  split. { simpl. repeat split; ring. }
  split. { simpl. repeat split; ring. }
  split. { intros score. reflexivity. }
  split. { split; [|split]; apply component_affine. }
  split. { split; [|split]; apply component_monotone. }
  exact process_off.
Qed.

(** C6 at the colours of the source and the scores 0 and -1/2. *)
Lemma blend_and_leds_at_joy_sad :
  color_eq (blend JOY_COLOR SAD_COLOR 0) JOY_COLOR
  /\ color_eq (blend JOY_COLOR SAD_COLOR 1) SAD_COLOR
  /\ process blend 0 (rgb_on JOY_COLOR) = Some rgb_off
  /\ process blend (- (1 # 2)) (rgb_on JOY_COLOR) = Some rgb_off.
Proof.
  pose proof (blend_and_leds JOY_COLOR SAD_COLOR) as (H0 & H1 & _ & _ & _ & Hoff).
  split; [exact H0|]. split; [exact H1|]. split.
  - apply Hoff. discriminate.
  - apply Hoff. discriminate.
Defined.

End LightsProps.

(** ** The Service worker *)

Section ListFacts.

Context {A : Type}.

(** An item absent from [l] that shows up in [l ++ [x]] is its last item. *)
Lemma fresh_item_last :
  forall (l l1 l2 : list (option A)) (x : option A),
    ~ In None l -> l ++ [x] = l1 ++ None :: l2 -> l2 = [].
Proof.
  intros l l1 l2 x Hnot Heq.
  destruct l2 as [|y l2] using rev_ind; [reflexivity|].
  clear IHl2. exfalso. apply Hnot.
  change (l1 ++ None :: l2 ++ [y]) with (l1 ++ (None :: l2) ++ [y]) in Heq.
  rewrite app_assoc in Heq. apply app_inj_tail in Heq as [-> _].
  apply in_elt.
Qed.

(** Two splits of one list at its first sentinel are the same split. *)
Lemma first_sentinel_unique :
  forall l1 l2 m1 m2 : list (option A),
    ~ In None l1 -> ~ In None m1 ->
    l1 ++ None :: l2 = m1 ++ None :: m2 -> l1 = m1 /\ l2 = m2.
Proof.
  induction l1 as [|x l1 IH]; intros l2 m1 m2 Hl Hm Heq.
  - destruct m1 as [|y m1]; simpl in Heq.
    + injection Heq as ->. auto.
    + injection Heq as <- _. exfalso. apply Hm. now left.
  - destruct m1 as [|y m1]; simpl in Heq.
    + injection Heq as -> _. exfalso. apply Hl. now left.
    + injection Heq as -> Heq.
      destruct (IH l2 m1 m2) as [-> ->]; auto.
      * intros H. apply Hl. now right.
      * intros H. apply Hm. now right.
Qed.

(** A run of requests at the head of a list lies before any sentinel of the
    list. *)
Lemma requests_before_sentinel :
  forall (rs : list A) (rest p q : list (option A)),
    map Some rs ++ rest = p ++ None :: q ->
    exists more, p = map Some rs ++ more.
Proof.
  induction rs as [|r rs IH]; intros rest p q Heq.
  - exists p. reflexivity.
  - destruct p as [|y p]; simpl in Heq; [discriminate|].
    injection Heq as <- Heq.
    destruct (IH rest p q Heq) as [more ->].
    exists more. reflexivity.
Qed.

Lemma requests_of_app :
  forall l1 l2 : list (option A),
    Worker.requests_of (l1 ++ l2) = Worker.requests_of l1 ++ Worker.requests_of l2.
Proof. intros l1 l2. unfold Worker.requests_of. apply flat_map_app. Qed.

Lemma requests_of_map_Some :
  forall rs : list A, Worker.requests_of (map Some rs) = rs.
Proof.
  induction rs as [|r rs IH]; simpl; [reflexivity | now rewrite IH].
Qed.

Lemma map_Some_requests_of :
  forall l : list (option A), ~ In None l -> map Some (Worker.requests_of l) = l.
Proof.
  induction l as [|[r|] l IH]; intros Hnot; simpl.
  - reflexivity.
  - rewrite IH; [reflexivity|]. intros H. apply Hnot. now right.
  - exfalso. apply Hnot. now left.
Qed.

Lemma sentinel_last_split :
  forall l : list (option A),
    Worker.sentinel_last l -> In None l ->
    exists l1, l = l1 ++ [None] /\ ~ In None l1.
Proof.
  intros l Hlast Hin.
  destruct (in_split _ _ Hin) as (l1 & l2 & Heq).
  pose proof (Hlast _ _ Heq) as ->. exists l1. split; [exact Heq|].
  intros Hin1. destruct (in_split _ _ Hin1) as (a & b & ->).
  rewrite <- app_assoc in Heq. simpl in Heq.
  apply Hlast in Heq. destruct b; discriminate.
Qed.

End ListFacts.

Section HistoryFacts.

Import Worker.

Context {Req : Type}.

Implicit Types h k : list (Event Req).

Lemma submitted_app h k : submitted (h ++ k) = submitted h ++ submitted k.
Proof. apply flat_map_app. Qed.

Lemma taken_app h k : taken (h ++ k) = taken h ++ taken k.
Proof. apply flat_map_app. Qed.

Lemma handled_app h k : handled (h ++ k) = handled h ++ handled k.
Proof. apply flat_map_app. Qed.

Lemma observed_app h k : observed (h ++ k) = observed h ++ observed k.
Proof. apply flat_map_app. Qed.

Lemma processed_app h k : processed (h ++ k) = processed h ++ processed k.
Proof. apply flat_map_app. Qed.

Lemma shutdown_calls_app h k :
  shutdown_calls (h ++ k) = shutdown_calls h + shutdown_calls k.
Proof. unfold shutdown_calls. now rewrite flat_map_app, length_app. Qed.

Lemma close_calls_app h k : close_calls (h ++ k) = close_calls h + close_calls k.
Proof. unfold close_calls. now rewrite flat_map_app, length_app. Qed.

Lemma close_returns_app h k :
  close_returns (h ++ k) = close_returns h + close_returns k.
Proof. unfold close_returns. now rewrite flat_map_app, length_app. Qed.

(** The requests [process] saw are the requests among the handled items. *)
Lemma observed_handled h : observed h = requests_of (handled h).
Proof.
  induction h as [|e h IH]; [reflexivity|].
  change (e :: h) with ([e] ++ h).
  rewrite observed_app, handled_app, requests_of_app, IH.
  destruct e; reflexivity.
Qed.

(** [shutdown] ran as often as a sentinel was handled. *)
Lemma shutdown_calls_handled h :
  shutdown_calls h = List.length (filter (fun x : option Req => match x with None => true | _ => false end) (handled h)).
Proof.
  induction h as [|e h IH]; [reflexivity|].
  change (e :: h) with ([e] ++ h).
  rewrite shutdown_calls_app, handled_app, filter_app, length_app, IH.
  destruct e; reflexivity.
Qed.

Lemma no_sentinel_filter :
  forall l : list (option Req),
    ~ In None l ->
    filter (fun x : option Req => match x with None => true | _ => false end) l = [].
Proof.
  induction l as [|[r|] l IH]; intros Hnot; simpl.
  - reflexivity.
  - apply IH. intros H. apply Hnot. now right.
  - exfalso. apply Hnot. now left.
Qed.

End HistoryFacts.

Section CounterFacts.

Import Worker.

Context {Req : Type}.

Implicit Types h : list (Event Req).

Lemma shutdown_calls_snoc h (e : Event Req) :
  shutdown_calls (h ++ [e])
  = shutdown_calls h + match e with EvShutdown _ => 1 | _ => 0 end.
Proof. rewrite shutdown_calls_app. now destruct e. Qed.

Lemma close_calls_snoc h (e : Event Req) :
  close_calls (h ++ [e])
  = close_calls h + match e with EvCloseCall => 1 | _ => 0 end.
Proof. rewrite close_calls_app. now destruct e. Qed.

Lemma close_returns_snoc h (e : Event Req) :
  close_returns (h ++ [e])
  = close_returns h + match e with EvCloseReturn => 1 | _ => 0 end.
Proof. rewrite close_returns_app. now destruct e. Qed.

End CounterFacts.

Create Rewrite HintDb hist.

#[local] Hint Rewrite @submitted_app @taken_app @handled_app @observed_app
  @processed_app @shutdown_calls_snoc @close_calls_snoc @close_returns_snoc : hist.

Section WorkerProps.

Import Worker.

Variables Req S : Type.
Variable process : Req -> S -> option S.
Variable shutdown : S -> option S.

Local Abbreviation run := (exec process shutdown).
Local Abbreviation move := (step process shutdown).

Implicit Types st : State Req S.
Implicit Types sched : list (Action Req).

Lemma run_app sched sched' st : run (sched ++ sched') st = run sched' (run sched st).
Proof. apply fold_left_app. Qed.

Lemma run_cons a sched st : run (a :: sched) st = run sched (move st a).
Proof. reflexivity. Qed.

(** Rewrite the readings of a history that grew by one event. *)
Ltac grown :=
  simpl; autorewrite with hist; simpl; rewrite ?app_nil_r, ?Nat.add_0_r.

(** *** The invariants hold in every reachable state *)

Lemma consistent_init (s0 : S) : consistent (__init__ (Req := Req) s0).
Proof.
  constructor; unfold close_returns, close_calls; simpl;
    try reflexivity; try lia; try tauto.
  intros l1 l2 H. destruct l1; discriminate.
Qed.

Lemma consistent_put st (x : option Req) : consistent st -> consistent (put x st).
Proof.
  intros [Hq Ht Ha Hl Hr Hj Hc]. unfold put. constructor; grown; try assumption.
  - rewrite Hq. now rewrite app_assoc.
  - intros Hpos. apply in_or_app. left. now apply Hc.
Qed.

Lemma consistent_close_call st : consistent st -> consistent (close_call st).
Proof.
  intros [Hq Ht Ha Hl Hr Hj Hc]. unfold close_call, put.
  constructor; grown; try assumption.
  - rewrite Hq. now rewrite app_assoc.
  - lia.
  - intros _. apply in_or_app. right. now left.
Qed.

Lemma consistent_close_return st : consistent st -> consistent (close_return st).
Proof.
  intros Hst. unfold close_return.
  destruct (joining st) as [|j] eqn:Hjoin; [exact Hst|].
  destruct (terminated (_thread st)) eqn:Hterm; [|exact Hst].
  destruct Hst as [Hq Ht Ha Hl Hr Hj Hc].
  constructor; grown; try assumption.
  - intros _. exact Hterm.
  - lia.
Qed.

Lemma consistent_get st : consistent st -> consistent (_run_get st).
Proof.
  intros Hst. unfold _run_get.
  destruct (_thread st) as [|r| | |] eqn:Hthread; try exact Hst.
  destruct (_requests st) as [|x rest] eqn:Hqueue; [exact Hst|].
  destruct Hst as [Hq Ht Ha Hl Hr Hj Hc].
  rewrite Hthread in Ht, Ha, Hr. rewrite Hqueue in Hq. simpl in Ht, Ha, Hr.
  rewrite app_nil_r in Ht.
  constructor; grown; try assumption.
  - rewrite Hq. now rewrite <- app_assoc.
  - rewrite Ht. now destruct x.
  - intros _. now apply Ha.
  - intros Hpos. specialize (Hr Hpos). discriminate.
Qed.

Lemma consistent_hook st : consistent st -> consistent (_run_hook process shutdown st).
Proof.
  intros Hst. unfold _run_hook.
  destruct (_thread st) as [|r| | |] eqn:Hthread; try exact Hst.
  - (* process *)
    destruct Hst as [Hq Ht Ha Hl Hr Hj Hc].
    rewrite Hthread in Ht, Ha, Hr. simpl in Ht, Ha, Hr.
    specialize (Ha eq_refl).
    assert (Hlast : sentinel_last (handled (history st) ++ [Some r])).
    { intros l1 l2 Heq. now apply (fresh_item_last _ _ _ _ Ha Heq). }
    assert (Hnone : ~ In None (handled (history st) ++ [Some r])).
    { intros Hin. apply in_app_or in Hin as [Hin|[Hin|[]]]; [auto|discriminate]. }
    destruct (process r (hooks st)) as [s'|] eqn:Hproc;
      constructor; grown; try assumption; try discriminate.
    + intros _. exact Hnone.
    + intros Hpos. specialize (Hr Hpos). discriminate.
  - (* shutdown *)
    destruct Hst as [Hq Ht Ha Hl Hr Hj Hc].
    rewrite Hthread in Ht, Ha, Hr. simpl in Ht, Ha, Hr.
    specialize (Ha eq_refl).
    assert (Hlast : sentinel_last (handled (history st) ++ [None])).
    { intros l1 l2 Heq. now apply (fresh_item_last _ _ _ _ Ha Heq). }
    destruct (shutdown (hooks st)) as [s'|] eqn:Hshut;
      constructor; grown; try assumption; try discriminate; try reflexivity.
Qed.

Lemma consistent_move st a : consistent st -> consistent (move st a).
Proof.
  intros Hst. destruct a as [x| | | |]; simpl.
  - now apply consistent_put.
  - now apply consistent_close_call.
  - now apply consistent_close_return.
  - now apply consistent_get.
  - now apply consistent_hook.
Qed.

Lemma consistent_run sched st : consistent st -> consistent (run sched st).
Proof.
  revert st. induction sched as [|a sched IH]; intros st Hst; [exact Hst|].
  rewrite run_cons. apply IH. now apply consistent_move.
Qed.

(** A sentinel among the dequeued items is the last of them. *)
Lemma consistent_sentinel_last st : consistent st -> sentinel_last (taken (history st)).
Proof.
  intros [Hq Ht Ha Hl Hr Hj Hc]. rewrite Ht.
  destruct (terminated (_thread st)) eqn:Hterm.
  - destruct (_thread st); try discriminate; simpl; now rewrite app_nil_r.
  - specialize (Ha eq_refl).
    destruct (_thread st); try discriminate; simpl.
    + now rewrite app_nil_r.
    + intros l1 l2 Heq. now apply (fresh_item_last _ _ _ _ Ha Heq).
    + intros l1 l2 Heq. now apply (fresh_item_last _ _ _ _ Ha Heq).
Qed.

(** *** What the callers put is what the history records *)

Lemma submitted_move st a :
  submitted (history (move st a)) = submitted (history st) ++ puts_of [a].
Proof.
  destruct a as [x| | | |]; simpl;
    unfold submit, close_call, close_return, put, _run_get, _run_hook.
  - now grown.
  - now grown.
  - destruct (joining st); [now rewrite app_nil_r|].
    destruct (terminated (_thread st)); now grown.
  - destruct (_thread st); try now rewrite app_nil_r.
    destruct (_requests st); now grown.
  - destruct (_thread st); try now rewrite app_nil_r.
    + destruct (process r (hooks st)); now grown.
    + destruct (shutdown (hooks st)); now grown.
Qed.

Lemma submitted_run sched st :
  submitted (history (run sched st)) = submitted (history st) ++ puts_of sched.
Proof.
  revert st. induction sched as [|a sched IH]; intros st.
  - simpl. now rewrite app_nil_r.
  - rewrite run_cons, IH, submitted_move. simpl.
    rewrite <- app_assoc. f_equal. unfold puts_of. simpl.
    now rewrite app_nil_r.
Qed.

Lemma submitted_init sched (s0 : S) :
  submitted (history (run sched (__init__ s0))) = puts_of sched.
Proof. now rewrite submitted_run. Qed.

Lemma puts_of_app sched sched' :
  puts_of (sched ++ sched') = puts_of sched ++ puts_of sched'.
Proof. apply flat_map_app. Qed.

Lemma puts_of_drain n : puts_of (drain (Req := Req) n) = [].
Proof. induction n as [|n IH]; [reflexivity | exact IH]. Qed.

(** A schedule without sentinels puts none. *)
Lemma sentinel_free_puts sched :
  sentinel_free sched = true -> ~ In None (puts_of sched).
Proof.
  induction sched as [|a sched IH]; [intros _ []|].
  intros Hfree. simpl in Hfree. apply andb_prop in Hfree as [Ha Hrest].
  change (a :: sched) with ([a] ++ sched). rewrite puts_of_app.
  intros Hin. apply in_app_or in Hin as [Hin|Hin]; [|now apply IH].
  destruct a as [[r|]| | | |]; simpl in Hin, Ha;
    try discriminate Ha; try exact Hin.
  destruct Hin as [Hin|Hin]; [discriminate | exact Hin].
Qed.

(** *** A thread that has ended stays ended *)

Lemma frozen_refl st : frozen st st.
Proof. repeat split. Qed.

Lemma frozen_trans st st' st'' : frozen st st' -> frozen st' st'' -> frozen st st''.
Proof.
  unfold frozen. intros (H1 & H2 & H3 & H4 & H5 & H6 & H7) (K1 & K2 & K3 & K4 & K5 & K6 & K7).
  repeat split; congruence.
Qed.

Lemma terminated_move st a :
  terminated (_thread st) = true ->
  frozen st (move st a) /\ _requests (move st a) = _requests st ++ puts_of [a].
Proof.
  intros Hterm. unfold frozen.
  destruct a as [x| | | |]; simpl;
    unfold submit, close_call, close_return, put, _run_get, _run_hook.
  - grown. repeat split.
  - grown. repeat split.
  - destruct (joining st); [rewrite app_nil_r; repeat split|].
    rewrite Hterm. grown. repeat split.
  - destruct (_thread st) eqn:Hthread; try discriminate; simpl;
      rewrite app_nil_r; repeat split; exact Hthread.
  - destruct (_thread st) eqn:Hthread; try discriminate; simpl;
      rewrite app_nil_r; repeat split; exact Hthread.
Qed.

Lemma terminated_run sched st :
  terminated (_thread st) = true ->
  frozen st (run sched st) /\ _requests (run sched st) = _requests st ++ puts_of sched.
Proof.
  revert st. induction sched as [|a sched IH]; intros st Hterm.
  - simpl. rewrite app_nil_r. split; [apply frozen_refl | reflexivity].
  - destruct (terminated_move st a Hterm) as [Hfrozen Hqueue].
    assert (Hterm' : terminated (_thread (move st a)) = true).
    { destruct Hfrozen as [-> _]. exact Hterm. }
    destruct (IH _ Hterm') as [Hfrozen' Hqueue'].
    rewrite run_cons. split.
    + now apply frozen_trans with (move st a).
    + rewrite Hqueue', Hqueue.
      change (a :: sched) with ([a] ++ sched).
      now rewrite puts_of_app, app_assoc.
Qed.

(** *** The consumer, left alone, comes to rest *)

Lemma hook_rests st :
  _requests (_run_hook process shutdown st) = _requests st
  /\ (_thread (_run_hook process shutdown st) = Waiting
      \/ terminated (_thread (_run_hook process shutdown st)) = true).
Proof.
  unfold _run_hook.
  destruct (_thread st) as [|r| | |] eqn:Hthread; simpl; rewrite ?Hthread; auto.
  - destruct (process r (hooks st)); simpl; auto.
  - destruct (shutdown (hooks st)); simpl; auto.
Qed.

Lemma hook_idle st :
  _thread st = Waiting \/ terminated (_thread st) = true ->
  _run_hook process shutdown st = st.
Proof.
  unfold _run_hook. intros [Hw|Hterm].
  - now rewrite Hw.
  - destruct (_thread st); try discriminate; reflexivity.
Qed.

Lemma get_idle st :
  (_thread st = Waiting /\ _requests st = []) \/ terminated (_thread st) = true ->
  _run_get st = st.
Proof.
  unfold _run_get. intros [[Hw Hq]|Hterm].
  - now rewrite Hw, Hq.
  - destruct (_thread st); try discriminate; reflexivity.
Qed.

Lemma get_takes st (x : option Req) (rest : list (option Req)) :
  _thread st = Waiting -> _requests st = x :: rest ->
  _requests (_run_get st) = rest.
Proof.
  unfold _run_get. intros -> ->. reflexivity.
Qed.

(** One turn of the consumer settles it or shortens the queue. *)
Lemma turn_progress st :
  settled (run [Run; Get; Run] st)
  \/ List.length (_requests (run [Run; Get; Run] st)) < List.length (_requests st).
Proof.
  simpl. destruct (hook_rests st) as [Hq [Hw|Hterm]].
  - destruct (_requests (_run_hook process shutdown st)) as [|x rest] eqn:Hqueue.
    + left. rewrite (get_idle _ (or_introl (conj Hw Hqueue))).
      rewrite (hook_idle _ (or_introl Hw)). right. split; assumption.
    + right. pose proof (get_takes _ x rest Hw Hqueue) as Hrest.
      destruct (hook_rests (_run_get (_run_hook process shutdown st))) as [-> _].
      rewrite Hrest, <- Hq. simpl. lia.
  - left. rewrite (get_idle _ (or_intror Hterm)).
    rewrite (hook_idle _ (or_intror Hterm)). left. exact Hterm.
Qed.

Lemma settled_turn st : settled st -> run [Run; Get; Run] st = st.
Proof.
  intros Hset. simpl.
  assert (Hhook : _run_hook process shutdown st = st).
  { apply hook_idle. destruct Hset as [Hterm|[Hw _]]; auto. }
  rewrite Hhook.
  assert (Hget : _run_get st = st).
  { apply get_idle. destruct Hset as [Hterm|[Hw Hq]]; auto. }
  rewrite Hget. exact Hhook.
Qed.

Lemma settled_drain n st : settled st -> run (drain n) st = st.
Proof.
  intros Hset. induction n as [|n IH]; [reflexivity|].
  change (drain (Datatypes.S n)) with ([Run; Get; Run] ++ drain (Req := Req) n).
  rewrite run_app, settled_turn by exact Hset. exact IH.
Qed.

Lemma drain_settles n st :
  List.length (_requests st) < n -> settled (run (drain n) st).
Proof.
  revert st. induction n as [|n IH]; intros st Hlen; [lia|].
  change (drain (Datatypes.S n)) with ([Run; Get; Run] ++ drain (Req := Req) n).
  rewrite run_app.
  destruct (turn_progress st) as [Hset|Hshort].
  - now rewrite settled_drain.
  - apply IH. lia.
Qed.

(** *** First in, first out *)

Lemma sentinel_last_prefix (l : list (option Req)) :
  sentinel_last l -> exists tail, l = map Some (requests_of l) ++ tail.
Proof.
  induction l as [|[r|] l IH]; intros Hlast.
  - exists []. reflexivity.
  - destruct IH as [tail Htail].
    + intros l1 l2 Heq. apply (Hlast (Some r :: l1) l2). now rewrite Heq.
    + exists tail. simpl. now rewrite <- Htail.
  - rewrite (Hlast [] l eq_refl). exists [None]. reflexivity.
Qed.

Lemma fifo_prefix st :
  consistent st ->
  exists rest, submitted (history st) = map Some (observed (history st)) ++ rest.
Proof.
  intros [Hq Ht Ha Hl Hr Hj Hc].
  destruct (sentinel_last_prefix _ Hl) as [tail Htail].
  exists (tail ++ in_hand (_thread st) ++ _requests st).
  rewrite Hq, Ht, observed_handled. rewrite Htail at 1.
  now rewrite <- !app_assoc.
Qed.

(** *** When [process] never raises *)

Section Unfailing.

Hypothesis process_returns : forall (r : Req) (s : S), process r s <> None.

Lemma unfailing_init (s0 : S) : unfailing (__init__ (Req := Req) s0).
Proof. constructor; [discriminate | reflexivity]. Qed.

Lemma unfailing_move st a : unfailing st -> unfailing (move st a).
Proof.
  intros Hst. pose proof Hst as [He Hall].
  destruct a as [x| | | |]; simpl;
    unfold submit, close_call, close_return, put, _run_get, _run_hook.
  - constructor; grown; assumption.
  - constructor; grown; assumption.
  - destruct (joining st); [exact Hst|].
    destruct (terminated (_thread st)) eqn:Hterm; [|exact Hst].
    constructor; grown; [rewrite Hterm|]; assumption.
  - destruct (_thread st) eqn:Hthread; try exact Hst.
    destruct (_requests st) as [|[r|] rest]; [exact Hst| |];
      constructor; grown; try assumption; discriminate.
  - destruct (_thread st) eqn:Hthread; try exact Hst.
    + destruct (process r (hooks st)) eqn:Hproc;
        [|now apply process_returns in Hproc].
      constructor; grown; [discriminate | now rewrite Hall].
    + destruct (shutdown (hooks st)); constructor; grown; try assumption;
        intros _; apply in_or_app; right; now left.
Qed.

Lemma unfailing_run sched st : unfailing st -> unfailing (run sched st).
Proof.
  revert st. induction sched as [|a sched IH]; intros st Hst; [exact Hst|].
  rewrite run_cons. apply IH. now apply unfailing_move.
Qed.

End Unfailing.

(** *** Consequences used by the claims *)

Lemma terminated_in_hand (t : Thread Req) : terminated t = true -> in_hand t = [].
Proof. destruct t; try discriminate; reflexivity. Qed.

Lemma exit_runs_shutdown_once st :
  consistent st -> In None (handled (history st)) -> shutdown_calls (history st) = 1.
Proof.
  intros Hst Hin.
  destruct (sentinel_last_split _ (handled_sentinel_last st Hst) Hin) as (l1 & Heq & Hnot).
  rewrite shutdown_calls_handled, Heq, filter_app, length_app.
  now rewrite (no_sentinel_filter _ Hnot).
Qed.

(** A consumer at rest with a sentinel submitted has reached it. *)
Lemma sentinel_reached st :
  consistent st -> In None (submitted (history st)) -> settled st ->
  terminated (_thread st) = true.
Proof.
  intros Hst Hin [Hterm|[Hw Hq]]; [exact Hterm|]. exfalso.
  rewrite (queue_conserved st Hst), (taken_accounted st Hst), Hw, Hq in Hin.
  simpl in Hin. rewrite !app_nil_r in Hin.
  apply (alive_no_sentinel st Hst); [now rewrite Hw | exact Hin].
Qed.

Lemma close_calls_move st a :
  close_calls (history st) <= close_calls (history (move st a)).
Proof.
  destruct a as [x| | | |]; simpl;
    unfold submit, close_call, close_return, put, _run_get, _run_hook.
  - grown. lia.
  - grown. lia.
  - destruct (joining st); [lia|].
    destruct (terminated (_thread st)); grown; lia.
  - destruct (_thread st); try lia. destruct (_requests st); grown; lia.
  - destruct (_thread st); try lia.
    + destruct (process r (hooks st)); grown; lia.
    + destruct (shutdown (hooks st)); grown; lia.
Qed.

Lemma close_calls_run sched st :
  close_calls (history st) <= close_calls (history (run sched st)).
Proof.
  revert st. induction sched as [|a sched IH]; intros st; [simpl; lia|].
  rewrite run_cons. pose proof (close_calls_move st a). pose proof (IH (move st a)). lia.
Qed.

Lemma close_called st sched :
  0 < close_calls (history (run (CloseCall :: sched) st)).
Proof.
  rewrite run_cons. pose proof (close_calls_run sched (move st CloseCall)) as Hle.
  assert (0 < close_calls (history (move st CloseCall))); [|lia].
  simpl. unfold close_call, put. grown. lia.
Qed.

(** *** The claims *)

(** C3. When [process] raises, the consumer thread dies: from then on no
    hook runs, whatever is submitted stays in the queue, and [submit] goes on
    enqueuing as before, with nothing reported to its caller. *)
Theorem process_error_stalls :
  forall (st : State Req S) (r : Req),
    _thread st = Processing r ->
    process r (hooks st) = None ->
    let st1 := move st Run in
    _thread st1 = Died
    /\ _requests st1 = _requests st
    /\ processed (history st1) = processed (history st)
    /\ forall sched : list (Action Req),
         let st2 := run sched st1 in
         _thread st2 = Died
         /\ hooks st2 = hooks st
         /\ observed (history st2) = observed (history st1)
         /\ processed (history st2) = processed (history st)
         /\ shutdown_calls (history st2) = shutdown_calls (history st)
         /\ _requests st2 = _requests st ++ puts_of sched
         /\ forall x : option Req,
              move st2 (Submit x) = put x st2
              /\ _requests (move st2 (Submit x)) = _requests st2 ++ [x]
              /\ _thread (move st2 (Submit x)) = Died.
Proof.
  intros st r Hthread Hraise st1.
  assert (Hst1 : st1 = mkState (_requests st) (unfinished_tasks st) Died (hooks st)
                               (joining st) (history st ++ [EvProcess r false])).
  { unfold st1. simpl. unfold _run_hook. now rewrite Hthread, Hraise. }
  assert (Hdied : _thread st1 = Died) by now rewrite Hst1.
  split; [exact Hdied|]. split; [now rewrite Hst1|].
  split; [rewrite Hst1; now grown|].
  intros sched st2.
  destruct (terminated_run sched st1) as [(K1 & K2 & K3 & K4 & K5 & K6 & K7) Hqueue].
  { now rewrite Hdied. }
  fold st2 in K1, K2, K3, K4, K5, K6, K7, Hqueue.
  split; [congruence|]. split; [rewrite K2, Hst1; reflexivity|].
  split; [exact K5|]. split; [rewrite K6, Hst1; now grown|].
  split; [rewrite K7, Hst1; now grown|].
  split; [rewrite Hqueue, Hst1; reflexivity|].
  intros x. split; [reflexivity|]. split; [reflexivity|].
  simpl. congruence.
Qed.

(** The consumer at a sentinel: it runs [shutdown] and its thread ends,
    leaving what was queued behind the sentinel where it is. *)
Lemma sentinel_ends_thread st (rest : list (option Req)) :
  _thread st = Waiting -> _requests st = None :: rest ->
  let st' := run [Get; Run] st in
  terminated (_thread st') = true
  /\ shutdown_calls (history st') = Datatypes.S (shutdown_calls (history st))
  /\ observed (history st') = observed (history st)
  /\ _requests st' = rest.
Proof.
  intros Hw Hq. simpl. unfold _run_get. rewrite Hw, Hq.
  unfold _run_hook. simpl.
  destruct (shutdown (hooks st)); grown; repeat split; lia.
Qed.

(** C10. [submit(None)] queues the very item [close()] queues; the consumer
    that dequeues it runs [shutdown] and ends; the requests [process] sees
    were all submitted before that [None]; and the caller of [submit(None)]
    does not wait, where the caller of [close()] cannot return while the
    thread is alive. *)
Theorem submit_none_shuts_down :
  forall (s0 : S) (before after : list (Action Req)),
    let st1 := run before (__init__ s0) in
    let st := run (before ++ Submit None :: after) (__init__ s0) in
    (_requests (submit None st1) = _requests (close_call st1)
     /\ _thread (submit None st1) = _thread (close_call st1)
     /\ hooks (submit None st1) = hooks (close_call st1))
    /\ (forall (st0 : State Req S) (rest : list (option Req)),
          _thread st0 = Waiting -> _requests st0 = None :: rest ->
          terminated (_thread (run [Get; Run] st0)) = true
          /\ shutdown_calls (history (run [Get; Run] st0))
             = Datatypes.S (shutdown_calls (history st0))
          /\ observed (history (run [Get; Run] st0)) = observed (history st0)
          /\ _requests (run [Get; Run] st0) = rest)
    /\ (exists more, puts_of before = map Some (observed (history st)) ++ more)
    /\ (let st' := run (drain (Datatypes.S (List.length (_requests st)))) st in
        terminated (_thread st') = true
        /\ (exists more, puts_of before = map Some (observed (history st')) ++ more)
        /\ ((forall (r : Req) (s : S), process r s <> None) ->
            shutdown_calls (history st') = 1))
    /\ (joining (submit None st1) = joining st1
        /\ close_returns (history (submit None st1)) = close_returns (history st1)
        /\ joining (close_call st1) = Datatypes.S (joining st1)
        /\ (terminated (_thread st1) = false ->
            close_return (close_call st1) = close_call st1)).
Proof.
  intros s0 before after st1 st.
  assert (Hprefix : forall sched,
    exists more, puts_of before
      = map Some (observed (history (run sched st))) ++ more).
  { intros sched.
    assert (Hc : consistent (run sched st)).
    { apply consistent_run, consistent_run, consistent_init. }
    destruct (fifo_prefix _ Hc) as [rest Hrest].
    unfold st in Hrest |- *. rewrite <- run_app in Hrest |- *.
    rewrite submitted_init, !puts_of_app, <- app_assoc in Hrest. simpl in Hrest.
    symmetry in Hrest. now apply requests_before_sentinel in Hrest. }
  split; [repeat split|].
  split; [intros st0 rest Hw Hq; now apply sentinel_ends_thread|].
  split; [apply (Hprefix [])|].
  split; [|split; [reflexivity|]; split; [now (simpl; grown)|]; split; [reflexivity|]].
  - intros st'.
    assert (Hst' : consistent st').
    { apply consistent_run, consistent_run, consistent_init. }
    assert (Hterm : terminated (_thread st') = true).
    { apply sentinel_reached; [exact Hst'| |apply drain_settles; lia].
      unfold st', st. rewrite <- run_app, submitted_init, !puts_of_app.
      apply in_or_app. left. apply in_or_app. right. now left. }
    split; [exact Hterm|]. split; [apply Hprefix|].
    intros Hreturns. apply exit_runs_shutdown_once; [exact Hst'|].
    apply exit_by_sentinel; [|exact Hterm].
    do 2 (apply unfailing_run; [assumption|]). apply unfailing_init.
  - intros Halive. unfold close_return, close_call, put. simpl. now rewrite Halive.
Qed.

End WorkerProps.

(** ** The claims at the services of the repository *)

Section Instances.

Import Worker.

(** The Animator's hooks never raise. *)
Lemma animator_returns :
  forall (r : Q) (s : Lights.Channels), Lights.process Lights.blend r s <> None.
Proof.
  intros r s. unfold Lights.process.
  destruct (negb (Qle_bool r 0)); discriminate.
Qed.

Lemma player_returns :
  forall (r : list string) (s : list (list string)), Tones.process r s <> None.
Proof. intros r s. discriminate. Qed.

(** C1, as stated, fails: the captures folder is missing, the capture
    raises and kills the thread, and [close()] returns although the sentinel
    was never dequeued and [shutdown] never ran; the cache update submitted
    before [close()] is lost. *)
Lemma close_contract_fails_when_process_raises :
  ~ close_contract Photo.process Photo.shutdown
      (FaceCap.missing_folder "2024-01-01_00.00.00")
      Scenarios.shoot_then_update [CloseReturn].
Proof.
  unfold close_contract. intros (_ & _ & _ & _ & Hpost).
  destruct Hpost as (_ & Hin & _).
  - vm_compute. apply le_n.
  - vm_compute in Hin. destruct Hin as [Hin|[]]. discriminate.
Qed.

(** What that run looks like. *)
Lemma close_after_raise_run :
  let st := exec Photo.process Photo.shutdown
                 (Scenarios.shoot_then_update ++ [CloseCall; CloseReturn])
                 (__init__ (FaceCap.missing_folder "2024-01-01_00.00.00")) in
  _thread st = Died
  /\ close_returns (history st) = 1
  /\ shutdown_calls (history st) = 0
  /\ processed (history st) = []
  /\ _requests st
     = [Some (Photo.Faces [FaceCap.scenario_face] FaceCap.scenario_frame); None].
Proof. vm_compute. repeat split. Qed.

(** C1 also fails when [None] went through [submit] first, although no
    hook raises: the score behind the [None] was submitted before [close()]
    and is never processed. *)
Lemma close_contract_fails_after_submit_none :
  ~ close_contract (Lights.process Lights.blend) Lights.shutdown Lights.rgb_off
      Scenarios.none_then_score [Get; Run; CloseReturn].
Proof.
  unfold close_contract. intros (_ & _ & _ & _ & Hpost).
  destruct Hpost as (_ & _ & _ & Hlost & _).
  - vm_compute. apply le_n.
  - vm_compute in Hlost. discriminate.
Qed.

(** C3 at the Photographer without its folder: the capture raises. *)
Lemma process_error_stalls_photographer :
  let st := exec Photo.process Photo.shutdown
                 [ Submit (Some (Photo.Shot (FaceCap.camera ""))); Get ]
                 (__init__ (FaceCap.missing_folder "2024-01-01_00.00.00")) in
  let st1 := step Photo.process Photo.shutdown st Run in
  _thread st1 = Died
  /\ forall sched : list (Action Photo.Message),
       _thread (exec Photo.process Photo.shutdown sched st1) = Died
       /\ observed (history (exec Photo.process Photo.shutdown sched st1))
          = observed (history st1)
       /\ _requests (exec Photo.process Photo.shutdown sched st1)
          = _requests st ++ puts_of sched.
Proof.
  intros st st1.
  pose proof (process_error_stalls Photo.Message Photo.World
                Photo.process Photo.shutdown st
                (Photo.Shot (FaceCap.camera "")) eq_refl eq_refl)
    as (Hdied & _ & _ & Hlater).
  split; [exact Hdied|].
  intros sched. destruct (Hlater sched) as (H1 & _ & H3 & _ & _ & H6 & _).
  repeat split; assumption.
Defined.

(** C10 at the Animator: the score behind the [None] is never processed. *)
Lemma submit_none_animator :
  let st := exec (Lights.process Lights.blend) Lights.shutdown
                 (Scenarios.none_then_score ++ drain 3) (__init__ Lights.rgb_off) in
  _thread st = Finished
  /\ hooks st = Lights.rgb_off
  /\ shutdown_calls (history st) = 1
  /\ observed (history st) = []
  /\ _requests st = [Some (1 # 2)%Q]
  /\ joining st = 0.
Proof. vm_compute. repeat split. Qed.

End Instances.

(** * Further properties of the worker *)

Section WorkerAccounts.

Import Worker Sequential.

Variables Req S : Type.
Variable process : Req -> S -> option S.
Variable shutdown : S -> option S.

Local Abbreviation run := (exec process shutdown).
Local Abbreviation move := (step process shutdown).

Implicit Types st : State Req S.
Implicit Types sched : list (Action Req).

Ltac grown :=
  simpl; autorewrite with hist; simpl; rewrite ?app_nil_r, ?Nat.add_0_r.

(** *** Replaying the processed requests *)

Lemma replay_app (rs rs' : list Req) (s : S) :
  replay process (rs ++ rs') s
  = match replay process rs s with
    | Some s' => replay process rs' s'
    | None => None
    end.
Proof.
  revert s. induction rs as [|r rs IH]; intros s; simpl; [reflexivity|].
  destruct (process r s); [apply IH | reflexivity].
Qed.

Lemma replay_prefix (rs rs' : list Req) (s : S) :
  replay process (rs ++ rs') s <> None -> replay process rs s <> None.
Proof.
  rewrite replay_app. destruct (replay process rs s); [discriminate | auto].
Qed.

Lemma hook_state_init (s0 : S) : hook_state process shutdown s0 (__init__ s0).
Proof. reflexivity. Qed.

Lemma hook_state_move (s0 : S) st a :
  hook_state process shutdown s0 st -> hook_state process shutdown s0 (move st a).
Proof.
  unfold hook_state. intros Hst.
  destruct a as [x| | | |]; simpl;
    unfold submit, close_call, close_return, put, _run_get, _run_hook.
  - grown. exact Hst.
  - grown. exact Hst.
  - destruct (joining st); [exact Hst|].
    destruct (terminated (_thread st)); [|exact Hst]. grown. exact Hst.
  - destruct (_thread st) eqn:Hthread; try (rewrite Hthread; exact Hst).
    destruct (_requests st) as [|[r|] rest]; [rewrite Hthread; exact Hst| |];
      grown; exact Hst.
  - destruct (_thread st) eqn:Hthread; try (rewrite Hthread; exact Hst).
    + destruct (process r (hooks st)) as [s'|] eqn:Hproc; grown; [|exact Hst].
      rewrite replay_app, Hst. simpl. now rewrite Hproc.
    + destruct (shutdown (hooks st)) as [s'|] eqn:Hshut; grown; [|exact Hst].
      exists (hooks st). split; assumption.
Qed.

Lemma hook_state_run (s0 : S) sched st :
  hook_state process shutdown s0 st -> hook_state process shutdown s0 (run sched st).
Proof.
  revert st. induction sched as [|a sched IH]; intros st Hst; [exact Hst|].
  simpl. apply IH. now apply hook_state_move.
Qed.

(** *** The counter of unfinished tasks *)

Lemma processed_le_handled (h : list (Event Req)) :
  List.length (processed h) <= List.length (handled h).
Proof.
  induction h as [|e h IH]; [simpl; lia|].
  change (e :: h) with ([e] ++ h).
  rewrite processed_app, handled_app, !length_app.
  destruct e as [x|x|r [|]|ok| |]; simpl; lia.
Qed.

Lemma task_pending st (r : Req) :
  consistent st -> tasks_accounted st -> _thread st = Processing r ->
  0 < unfinished_tasks st.
Proof.
  unfold tasks_accounted. intros Hst Hacc Hthread.
  pose proof (queue_conserved st Hst) as Hq.
  pose proof (taken_accounted st Hst) as Ht.
  rewrite Hthread in Ht. simpl in Ht.
  rewrite Hq, Ht, !length_app in Hacc. simpl in Hacc.
  pose proof (processed_le_handled (history st)). lia.
Qed.

Lemma tasks_accounted_move st a :
  consistent st -> tasks_accounted st -> tasks_accounted (move st a).
Proof.
  intros Hst Hacc. pose proof (task_pending st) as Hpending.
  unfold tasks_accounted in *.
  destruct a as [x| | | |]; simpl;
    unfold submit, close_call, close_return, put, _run_get, _run_hook.
  - grown. rewrite length_app. simpl. lia.
  - grown. rewrite length_app. simpl. lia.
  - destruct (joining st); [exact Hacc|].
    destruct (terminated (_thread st)); [|exact Hacc]. grown. exact Hacc.
  - destruct (_thread st); try exact Hacc.
    destruct (_requests st) as [|x rest]; [exact Hacc|]. grown. exact Hacc.
  - destruct (_thread st) eqn:Hthread; try exact Hacc.
    + specialize (Hpending r Hst Hacc eq_refl).
      destruct (process r (hooks st)); grown; [|exact Hacc].
      rewrite length_app. simpl. lia.
    + destruct (shutdown (hooks st)); grown; exact Hacc.
Qed.

Lemma tasks_accounted_run sched st :
  consistent st -> tasks_accounted st -> tasks_accounted (run sched st).
Proof.
  revert st. induction sched as [|a sched IH]; intros st Hst Hacc; [exact Hacc|].
  simpl. apply IH; [now apply consistent_move | now apply tasks_accounted_move].
Qed.

Lemma requests_of_shorter (l : list (option Req)) :
  List.length (requests_of l) <= List.length l
  /\ (In None l -> List.length (requests_of l) < List.length l).
Proof.
  induction l as [|[r|] l [IH1 IH2]]; simpl.
  - split; [lia | tauto].
  - split; [lia|]. intros [Hx|Hin]; [discriminate|]. specialize (IH2 Hin). lia.
  - split; [lia|]. intros _. lia.
Qed.

(** *** [shutdown] runs at most once *)

Lemma one_sentinel_at_most (l : list (option Req)) :
  sentinel_last l ->
  List.length (filter (fun x : option Req => match x with None => true | _ => false end) l) <= 1.
Proof.
  induction l as [|[r|] l IH]; intros Hlast; simpl.
  - lia.
  - apply IH. intros l1 l2 Heq. apply (Hlast (Some r :: l1) l2). now rewrite Heq.
  - rewrite (Hlast [] l eq_refl). simpl. lia.
Qed.

Lemma finished_by_sentinel_move st a :
  (_thread st = Finished -> In None (handled (history st))) ->
  _thread (move st a) = Finished -> In None (handled (history (move st a))).
Proof.
  intros Hst.
  destruct a as [x| | | |]; simpl;
    unfold submit, close_call, close_return, put, _run_get, _run_hook.
  - grown. exact Hst.
  - grown. exact Hst.
  - destruct (joining st); [exact Hst|].
    destruct (terminated (_thread st)); [|exact Hst]. grown. exact Hst.
  - destruct (_thread st) eqn:Hthread; try (rewrite Hthread; exact Hst).
    destruct (_requests st) as [|[r|] rest]; [rewrite Hthread; exact Hst| |];
      simpl; discriminate.
  - destruct (_thread st) eqn:Hthread; try (rewrite Hthread; exact Hst).
    + destruct (process r (hooks st)); simpl; discriminate.
    + destruct (shutdown (hooks st)); grown; [|discriminate].
      intros _. apply in_or_app. right. now left.
Qed.

Lemma finished_by_sentinel (s0 : S) sched :
  _thread (run sched (__init__ s0)) = Finished ->
  In None (handled (history (run sched (__init__ s0)))).
Proof.
  assert (H : forall st,
    (_thread st = Finished -> In None (handled (history st))) ->
    _thread (run sched st) = Finished -> In None (handled (history (run sched st)))).
  { induction sched as [|a sched IH]; intros st Hst; [exact Hst|].
    simpl. apply IH. now apply finished_by_sentinel_move. }
  apply H. discriminate.
Qed.

(** *** Releasing the callers of [close()] *)

Lemma consumer_move_callers st a :
  a = Get \/ a = Run ->
  joining (move st a) = joining st
  /\ close_calls (history (move st a)) = close_calls (history st)
  /\ close_returns (history (move st a)) = close_returns (history st).
Proof.
  intros [-> | ->]; simpl; unfold _run_get, _run_hook.
  - destruct (_thread st); try (now repeat split).
    destruct (_requests st); grown; now repeat split.
  - destruct (_thread st); try (now repeat split).
    + destruct (process r (hooks st)); grown; now repeat split.
    + destruct (shutdown (hooks st)); grown; now repeat split.
Qed.

Lemma drain_keeps_callers n st :
  joining (run (drain n) st) = joining st
  /\ close_calls (history (run (drain n) st)) = close_calls (history st)
  /\ close_returns (history (run (drain n) st)) = close_returns (history st).
Proof.
  revert st. induction n as [|n IH]; intros st; [repeat split|].
  simpl.
  destruct (consumer_move_callers st Run (or_intror eq_refl)) as (A1 & A2 & A3).
  destruct (consumer_move_callers (move st Run) Get (or_introl eq_refl)) as (B1 & B2 & B3).
  destruct (consumer_move_callers (move (move st Run) Get) Run (or_intror eq_refl))
    as (C1 & C2 & C3).
  destruct (IH (move (move (move st Run) Get) Run)) as (D1 & D2 & D3).
  simpl in *. repeat split; congruence.
Qed.

Lemma release_all n st :
  terminated (_thread st) = true -> joining st = n ->
  joining (run (release n) st) = 0
  /\ _thread (run (release n) st) = _thread st
  /\ close_calls (history (run (release n) st)) = close_calls (history st)
  /\ close_returns (history (run (release n) st)) = close_returns (history st) + n.
Proof.
  revert st. induction n as [|n IH]; intros st Hterm Hjoin.
  - simpl. repeat split; [exact Hjoin | lia].
  - simpl. unfold close_return. rewrite Hjoin, Hterm.
    match goal with |- context [run (release n) ?st1] =>
      destruct (IH st1) as (A1 & A2 & A3 & A4); [exact Hterm | reflexivity |]
    end.
    rewrite A1, A2, A3, A4. grown. repeat split; lia.
Qed.

(** *** A run in which no call of [process] raises *)

Lemma sentinel_free_drain n : sentinel_free (drain (Req := Req) n) = true.
Proof. induction n as [|n IH]; [reflexivity | exact IH]. Qed.

Lemma sentinel_free_app sched sched' :
  sentinel_free (sched ++ sched') = sentinel_free sched && sentinel_free sched'.
Proof. apply forallb_app. Qed.

Lemma unraised_move (s0 : S) st a :
  consistent st -> hook_state process shutdown s0 st ->
  ~ In None (submitted (history st)) ->
  replay process (requests_of (submitted (history st))) s0 <> None ->
  unraised st -> unraised (move st a).
Proof.
  intros Hst Hhook Hnone Hreplay [Hall Halive]. unfold unraised.
  destruct a as [x| | | |]; simpl;
    unfold submit, close_call, close_return, put, _run_get, _run_hook.
  - grown. split; assumption.
  - grown. split; assumption.
  - destruct (joining st); [split; assumption|].
    destruct (terminated (_thread st)); grown; split; assumption.
  - destruct (_thread st) eqn:Hthread; try (split; [assumption | now rewrite Hthread]).
    destruct (_requests st) as [|[r|] rest];
      [split; [assumption | now rewrite Hthread]| |];
      grown; split; try assumption; discriminate.
  - destruct (_thread st) eqn:Hthread; try (split; [assumption | now rewrite Hthread]).
    + (* the request in hand is the next of those submitted *)
      pose proof (queue_conserved st Hst) as Hq.
      pose proof (taken_accounted st Hst) as Ht.
      rewrite Hthread in Ht. simpl in Ht.
      unfold hook_state in Hhook. rewrite Hthread in Hhook.
      rewrite Hq, Ht, !requests_of_app, <- observed_handled, <- Hall in Hreplay.
      rewrite <- app_assoc, replay_app, Hhook in Hreplay. simpl in Hreplay.
      destruct (process r (hooks st)) as [s'|]; [|now elim Hreplay].
      grown. split; [now rewrite Hall | discriminate].
    + (* no sentinel was put, so none is in hand *)
      exfalso. apply Hnone.
      rewrite (queue_conserved st Hst), (taken_accounted st Hst), Hthread.
      apply in_or_app. left. apply in_or_app. right. now left.
Qed.

Lemma safe_run (s0 : S) sched :
  sentinel_free sched = true ->
  replay process (requests_of (puts_of sched)) s0 <> None ->
  unraised (run sched (__init__ s0)).
Proof.
  induction sched as [|a sched IH] using rev_ind; intros Hfree Hreplay.
  - split; [reflexivity | discriminate].
  - rewrite sentinel_free_app in Hfree. apply andb_prop in Hfree as [Hfree Ha].
    rewrite puts_of_app, requests_of_app in Hreplay.
    pose proof (replay_prefix _ _ _ Hreplay) as Hprefix.
    rewrite run_app. simpl.
    apply (unraised_move s0).
    + apply consistent_run, consistent_init.
    + apply hook_state_run, hook_state_init.
    + rewrite submitted_init. now apply sentinel_free_puts.
    + now rewrite submitted_init.
    + now apply IH.
Qed.

(** When the submitted requests can be processed one after the other without
    a raise, a consumer given its turns ends in the state that gives. *)
Lemma sequential_drain (s0 s_final : S) sched :
  sentinel_free sched = true ->
  replay process (requests_of (puts_of sched)) s0 = Some s_final ->
  let st := run sched (__init__ s0) in
  let st' := run (drain (Datatypes.S (List.length (_requests st)))) st in
  hooks st' = s_final
  /\ processed (history st') = requests_of (puts_of sched)
  /\ _requests st' = []
  /\ _thread st' = Waiting.
Proof.
  intros Hfree Hreplay st st'.
  set (n := Datatypes.S (List.length (_requests st))) in *.
  assert (Heq : st' = run (sched ++ drain n) (__init__ s0)).
  { unfold st', st. now rewrite run_app. }
  assert (Hputs : puts_of (sched ++ drain n) = puts_of sched).
  { now rewrite puts_of_app, puts_of_drain, app_nil_r. }
  assert (Hst' : consistent st') by (rewrite Heq; apply consistent_run, consistent_init).
  assert (Hhook : hook_state process shutdown s0 st').
  { rewrite Heq. apply hook_state_run, hook_state_init. }
  assert (Hun : unraised st').
  { rewrite Heq. apply safe_run.
    - now rewrite sentinel_free_app, Hfree, sentinel_free_drain.
    - rewrite Hputs, Hreplay. discriminate. }
  assert (Hsub : submitted (history st') = puts_of sched).
  { now rewrite Heq, submitted_init. }
  pose proof (sentinel_free_puts _ _ Hfree) as Hnone.
  assert (Hset : settled st') by (apply drain_settles; unfold n; lia).
  destruct Hun as [Hall Halive].
  pose proof (queue_conserved st' Hst') as Hq.
  pose proof (taken_accounted st' Hst') as Ht.
  destruct Hset as [Hterm|[Hw Hempty]].
  - exfalso. destruct (_thread st') eqn:Hthread; try discriminate.
    + apply Hnone. rewrite <- Hsub, Hq, Ht.
      apply in_or_app. left. apply in_or_app. left.
      rewrite Heq. apply finished_by_sentinel. now rewrite <- Heq.
    + now apply Halive.
  - unfold hook_state in Hhook. rewrite Hw in Hhook, Ht. simpl in Ht.
    rewrite Hempty in Hq. rewrite !app_nil_r in *.
    assert (Hprocessed : processed (history st') = requests_of (puts_of sched)).
    { rewrite Hall, observed_handled. congruence. }
    rewrite Hprocessed, Hreplay in Hhook.
    repeat split; congruence.
Qed.

Lemma processed_le_observed (h : list (Event Req)) :
  List.length (processed h) <= List.length (observed h).
Proof.
  induction h as [|e h IH]; [simpl; lia|].
  change (e :: h) with ([e] ++ h).
  rewrite processed_app, observed_app, !length_app.
  destruct e as [x|x|r [|]|ok| |]; simpl; lia.
Qed.

(** *** A raise leaves its mark *)

Lemma raise_recorded_init (s0 : S) : raise_recorded process s0 (__init__ s0).
Proof. split; [reflexivity | discriminate]. Qed.

Lemma raise_recorded_move (s0 : S) st a :
  hook_state process shutdown s0 st ->
  raise_recorded process s0 st -> raise_recorded process s0 (move st a).
Proof.
  intros Hhook Hst. pose proof Hst as [Halive Hdied]. unfold raise_recorded.
  destruct a as [x| | | |]; simpl;
    unfold submit, close_call, close_return, put, _run_get, _run_hook.
  - grown. split; assumption.
  - grown. split; assumption.
  - destruct (joining st); [exact Hst|].
    destruct (terminated (_thread st)) eqn:Hterm; [|exact Hst].
    grown. split; [rewrite Hterm; discriminate | assumption].
  - destruct (_thread st) eqn:Hthread; try exact Hst.
    destruct (_requests st) as [|[r|] rest]; [exact Hst| |];
      grown; (split; [intros _; now apply Halive | discriminate]).
  - destruct (_thread st) eqn:Hthread; try exact Hst.
    + specialize (Halive eq_refl).
      unfold hook_state in Hhook. rewrite Hthread in Hhook.
      destruct (process r (hooks st)) as [s'|] eqn:Hproc; grown.
      * split; [intros _; now rewrite Halive | discriminate].
      * split; [discriminate|]. intros _ _.
        now rewrite replay_app, <- Halive, Hhook; simpl; rewrite Hproc.
    + destruct (shutdown (hooks st)) as [s'|]; grown.
      * split; discriminate.
      * split; [discriminate|]. intros _ Hnot. exfalso. apply Hnot.
        apply in_or_app. right. now left.
Qed.

Lemma raise_recorded_run (s0 : S) sched :
  raise_recorded process s0 (run sched (__init__ s0)).
Proof.
  assert (H : forall st,
    hook_state process shutdown s0 st -> raise_recorded process s0 st ->
    raise_recorded process s0 (run sched st)).
  { induction sched as [|a sched IH]; intros st Hhook Hst; [exact Hst|].
    simpl. apply IH; [now apply hook_state_move | now apply raise_recorded_move]. }
  apply H; [apply hook_state_init | apply raise_recorded_init].
Qed.

Lemma requests_of_none (l : list (option Req)) :
  ~ In None l -> requests_of l = [] -> l = [].
Proof.
  destruct l as [|[r|] l]; simpl; [reflexivity | discriminate|].
  intros Hnot _. exfalso. apply Hnot. now left.
Qed.

(** *** Requests before the first sentinel *)

Lemma before_sentinel_requests (rs : list Req) (rest : list (option Req)) :
  before_sentinel (map Some rs ++ rest) = rs ++ before_sentinel rest.
Proof.
  induction rs as [|r rs IH]; simpl; [reflexivity | now rewrite IH].
Qed.

Lemma before_sentinel_clean (l q : list (option Req)) :
  ~ In None l -> before_sentinel (l ++ None :: q) = requests_of l.
Proof.
  intros Hnot. rewrite <- (map_Some_requests_of l Hnot) at 1.
  rewrite before_sentinel_requests. simpl. now rewrite app_nil_r.
Qed.

Lemma before_sentinel_app (l l' : list (option Req)) :
  exists more, before_sentinel (l ++ l') = before_sentinel l ++ more.
Proof.
  induction l as [|[r|] l [more IH]]; simpl.
  - now exists (before_sentinel l').
  - exists more. now rewrite IH.
  - now exists [].
Qed.

Lemma unfailing_guarded_move (s0 : S) st a :
  consistent st -> hook_state process shutdown s0 st ->
  replay process (before_sentinel (submitted (history st))) s0 <> None ->
  unfailing st -> unfailing (move st a).
Proof.
  intros Hc Hhook Hreplay Hst. pose proof Hst as [He Hall].
  destruct a as [x| | | |]; simpl;
    unfold submit, close_call, close_return, put, _run_get, _run_hook.
  - constructor; grown; assumption.
  - constructor; grown; assumption.
  - destruct (joining st); [exact Hst|].
    destruct (terminated (_thread st)) eqn:Hterm; [|exact Hst].
    constructor; grown; [rewrite Hterm|]; assumption.
  - destruct (_thread st) eqn:Hthread; try exact Hst.
    destruct (_requests st) as [|[r|] rest]; [exact Hst| |];
      constructor; grown; try assumption; discriminate.
  - destruct (_thread st) eqn:Hthread; try exact Hst.
    + (* the request in hand stands before every sentinel *)
      pose proof (queue_conserved st Hc) as Hq.
      pose proof (taken_accounted st Hc) as Ht.
      pose proof (alive_no_sentinel st Hc) as Hnone.
      rewrite Hthread in Ht, Hnone. simpl in Ht. specialize (Hnone eq_refl).
      unfold hook_state in Hhook. rewrite Hthread in Hhook.
      rewrite Hq, Ht, <- (map_Some_requests_of _ Hnone), <- observed_handled in Hreplay.
      rewrite <- !app_assoc, before_sentinel_requests in Hreplay. simpl in Hreplay.
      rewrite replay_app, <- Hall, Hhook in Hreplay. simpl in Hreplay.
      destruct (process r (hooks st)) as [s'|]; [|now elim Hreplay].
      constructor; grown; [discriminate | now rewrite Hall].
    + destruct (shutdown (hooks st)); constructor; grown; try assumption;
        intros _; apply in_or_app; right; now left.
Qed.

Lemma unfailing_guarded_run (s0 : S) sched :
  replay process (before_sentinel (puts_of sched)) s0 <> None ->
  unfailing (run sched (__init__ s0)).
Proof.
  induction sched as [|a sched IH] using rev_ind; intros Hreplay.
  - apply unfailing_init.
  - rewrite puts_of_app in Hreplay.
    destruct (before_sentinel_app (puts_of sched) (puts_of [a])) as [more Hmore].
    rewrite Hmore in Hreplay.
    pose proof (replay_prefix _ _ _ Hreplay) as Hprefix.
    rewrite run_app. simpl.
    apply (unfailing_guarded_move s0).
    + apply consistent_run, consistent_init.
    + apply hook_state_run, hook_state_init.
    + now rewrite submitted_init.
    + now apply IH.
Qed.

(** *** The properties *)

(** X1. Whatever the interleaving, as long as no hook has raised (the thread
    has not died) the state of the hooks is the one obtained by calling
    [process] on the processed requests one after the other from the initial
    state, followed by [shutdown] once the thread has finished.  Nothing is
    said of the state a raising hook leaves behind. *)
Theorem hooks_are_replay :
  forall (s0 : S) (sched : list (Action Req)),
    let st := run sched (__init__ s0) in
    _thread st <> Died ->
    (_thread st <> Finished ->
     replay process (processed (history st)) s0 = Some (hooks st))
    /\ (_thread st = Finished ->
        exists s, replay process (processed (history st)) s0 = Some s
                  /\ shutdown s = Some (hooks st)).
Proof.
  intros s0 sched st Halive.
  assert (Hhook : hook_state process shutdown s0 st).
  { apply hook_state_run, hook_state_init. }
  unfold hook_state in Hhook. split.
  - intros Hnot.
    destruct (_thread st); [exact Hhook | exact Hhook | exact Hhook | |];
      [now elim Hnot | now elim Halive].
  - intros Hfin. now rewrite Hfin in Hhook.
Qed.

(** X2. [shutdown] runs at most once, however often [close()] is called or
    [None] submitted; it has run once when the thread has finished, and not
    at all while the thread is alive or when no sentinel was ever put. *)
Theorem shutdown_at_most_once :
  forall (s0 : S) (sched : list (Action Req)),
    let st := run sched (__init__ s0) in
    shutdown_calls (history st) <= 1
    /\ (_thread st = Finished -> shutdown_calls (history st) = 1)
    /\ (terminated (_thread st) = false -> shutdown_calls (history st) = 0)
    /\ (~ In None (puts_of sched) -> shutdown_calls (history st) = 0).
Proof.
  intros s0 sched st.
  assert (Hst : consistent st) by apply consistent_run, consistent_init.
  assert (Hzero : ~ In None (handled (history st)) -> shutdown_calls (history st) = 0).
  { intros Hnot. now rewrite shutdown_calls_handled, no_sentinel_filter. }
  split; [|split; [|split]].
  - rewrite shutdown_calls_handled. apply one_sentinel_at_most.
    apply (handled_sentinel_last st Hst).
  - intros Hfin. apply exit_runs_shutdown_once; [exact Hst|].
    now apply finished_by_sentinel.
  - intros Halive. apply Hzero. now apply (alive_no_sentinel st Hst).
  - intros Hnone. apply Hzero. intros Hin. apply Hnone.
    unfold st. rewrite <- (submitted_init Req S process shutdown sched s0).
    fold st. rewrite (queue_conserved st Hst), (taken_accounted st Hst).
    apply in_or_app. left. apply in_or_app. now left.
Qed.

(** X3. Every caller blocked in [close()] is released once the consumer has
    had its turns, whether the thread ended through the sentinel or because
    a hook raised: no call of [close()] is left waiting. *)
Theorem close_releases_all :
  forall (s0 : S) (sched : list (Action Req)),
    let st := run sched (__init__ s0) in
    let st' := run (drain (Datatypes.S (List.length (_requests st)))
                    ++ release (joining st)) st in
    joining st' = 0
    /\ close_returns (history st') = close_calls (history st)
    /\ (0 < close_calls (history st) -> terminated (_thread st') = true).
Proof.
  intros s0 sched st st'.
  set (st_d := run (drain (Datatypes.S (List.length (_requests st)))) st).
  assert (Heq : st' = run (release (joining st)) st_d).
  { unfold st', st_d. now rewrite run_app. }
  assert (Hst : consistent st) by apply consistent_run, consistent_init.
  assert (Hd : consistent st_d) by now apply consistent_run.
  destruct (drain_keeps_callers (Datatypes.S (List.length (_requests st))) st)
    as (Hj & Hc & Hr). fold st_d in Hj, Hc, Hr.
  assert (Hterm : 0 < close_calls (history st) -> terminated (_thread st_d) = true).
  { intros Hpos. apply sentinel_reached; [exact Hd| |apply drain_settles; lia].
    unfold st_d. rewrite submitted_run, puts_of_drain, app_nil_r.
    now apply (close_put_sentinel st Hst). }
  pose proof (joiners_accounted st_d Hd) as Hacc.
  destruct (joining st) as [|j] eqn:Hjoin.
  - simpl in Heq. rewrite Heq. repeat split; [congruence | lia | exact Hterm].
  - assert (Hpos : 0 < close_calls (history st)) by lia.
    destruct (release_all (Datatypes.S j) st_d (Hterm Hpos) Hj) as (A1 & A2 & A3 & A4).
    rewrite <- Heq in A1, A2, A3, A4.
    repeat split; [exact A1 | lia | intros _; rewrite A2; now apply Hterm].
Qed.

(** X4. The queue's counter of unfinished tasks is the number of items put
    less the number of requests [process] returned from; it is positive
    whenever [task_done] is about to be called, so that call never raises;
    and once a sentinel has been put it never returns to zero. *)
Theorem tasks_counter :
  forall (s0 : S) (sched : list (Action Req)),
    let st := run sched (__init__ s0) in
    unfinished_tasks st + List.length (processed (history st))
    = List.length (puts_of sched)
    /\ (forall r : Req, _thread st = Processing r -> 0 < unfinished_tasks st)
    /\ (In None (puts_of sched) -> 0 < unfinished_tasks st).
Proof.
  intros s0 sched st.
  assert (Hst : consistent st) by apply consistent_run, consistent_init.
  assert (Hacc : tasks_accounted st).
  { apply tasks_accounted_run; [apply consistent_init | reflexivity]. }
  assert (Hsub : submitted (history st) = puts_of sched) by apply submitted_init.
  split; [rewrite <- Hsub; exact Hacc|]. split.
  - intros r Hthread. now apply (task_pending st r).
  - intros Hin. rewrite <- Hsub in Hin.
    destruct (requests_of_shorter (submitted (history st))) as [_ Hshort].
    specialize (Hshort Hin).
    pose proof (processed_le_observed (history st)) as Hle.
    rewrite observed_handled in Hle.
    unfold tasks_accounted in Hacc.
    assert (Hreq : List.length (requests_of (handled (history st)))
                   <= List.length (requests_of (submitted (history st)))).
    { rewrite (queue_conserved st Hst), (taken_accounted st Hst), !requests_of_app,
        !length_app. lia. }
    lia.
Qed.

(** X5. When the submitted requests can be processed one after the other
    without a raise and no sentinel was put, then after any interleaving a
    consumer given its turns has processed exactly those requests and left
    the hooks in the state of that sequential run. *)
Theorem sequential_result :
  forall (s0 s_final : S) (sched : list (Action Req)),
    sentinel_free sched = true ->
    replay process (requests_of (puts_of sched)) s0 = Some s_final ->
    let st := run sched (__init__ s0) in
    let st' := run (drain (Datatypes.S (List.length (_requests st)))) st in
    hooks st' = s_final
    /\ processed (history st') = requests_of (puts_of sched)
    /\ _requests st' = []
    /\ _thread st' = Waiting.
Proof.
  intros s0 s_final sched Hfree Hreplay. now apply sequential_drain.
Qed.

(** C2, as amended.  For every interleaving of callers and consumer:
    [process] is called with the first of the submitted requests, in
    submission order; every item put has been dequeued or is still queued,
    and what was dequeued is handled or in the consumer's hands, however long
    the consumer lags.  That a consumer given its turns calls [process] with
    every submitted request holds when no sentinel was put and the requests
    but the last can be processed one after the other without a raise; when
    the last can be too, [process] has returned from every one of them and
    the thread is waiting for more. *)
Theorem fifo_unless_raise :
  forall (s0 : S) (sched : list (Action Req)),
    let st := run sched (__init__ s0) in
    let st' := run (drain (Datatypes.S (List.length (_requests st)))) st in
    (exists rest, puts_of sched = map Some (observed (history st)) ++ rest)
    /\ puts_of sched = taken (history st) ++ _requests st
    /\ taken (history st) = handled (history st) ++ in_hand (_thread st)
    /\ (sentinel_free sched = true ->
        replay process (removelast (requests_of (puts_of sched))) s0 <> None ->
        fifo_contract process shutdown s0 sched)
    /\ (sentinel_free sched = true ->
        replay process (requests_of (puts_of sched)) s0 <> None ->
        processed (history st') = requests_of (puts_of sched)
        /\ _thread st' = Waiting).
Proof.
  intros s0 sched st st'.
  assert (Hst : consistent st) by apply consistent_run, consistent_init.
  assert (Hsub : submitted (history st) = puts_of sched) by apply submitted_init.
  assert (Hprefix : exists rest,
            puts_of sched = map Some (observed (history st)) ++ rest).
  { rewrite <- Hsub. now apply fifo_prefix. }
  assert (Hqueue : puts_of sched = taken (history st) ++ _requests st).
  { rewrite <- Hsub. apply (queue_conserved st Hst). }
  split; [exact Hprefix|]. split; [exact Hqueue|].
  split; [apply (taken_accounted st Hst)|]. split.
  - intros Hfree Hreplay. unfold fifo_contract. fold st. fold st'.
    split; [exact Hprefix|]. split; [exact Hqueue|].
    pose proof (sentinel_free_puts _ _ Hfree) as Hnone.
    assert (Heq : st' = run (sched ++ drain (Datatypes.S (List.length (_requests st))))
                            (__init__ s0)).
    { unfold st', st. now rewrite run_app. }
    assert (Hst' : consistent st').
    { rewrite Heq. apply consistent_run, consistent_init. }
    assert (Hrec : raise_recorded process s0 st').
    { rewrite Heq. apply raise_recorded_run. }
    assert (Hsub' : submitted (history st') = puts_of sched).
    { now rewrite Heq, submitted_init, puts_of_app, puts_of_drain, app_nil_r. }
    assert (Hset : settled st') by (apply drain_settles; lia).
    pose proof (queue_conserved st' Hst') as Hq.
    pose proof (taken_accounted st' Hst') as Ht.
    rewrite Hsub' in Hq.
    destruct Hset as [Hterm|[Hw Hempty]].
    + rewrite (terminated_in_hand _ _ Hterm), app_nil_r in Ht.
      rewrite Ht in Hq.
      assert (Hhandled : ~ In None (handled (history st'))).
      { intros Hin. apply Hnone. rewrite Hq. apply in_or_app. now left. }
      destruct (_thread st') eqn:Hthread; try discriminate Hterm.
      * exfalso. apply Hhandled. rewrite Heq. apply finished_by_sentinel.
        now rewrite <- Heq.
      * destruct Hrec as [_ Hdied]. specialize (Hdied Hthread Hhandled).
        assert (Hall : requests_of (puts_of sched)
                       = observed (history st') ++ requests_of (_requests st')).
        { now rewrite Hq, requests_of_app, <- observed_handled. }
        destruct (requests_of (_requests st')) as [|r rq] eqn:Hleft.
        -- rewrite app_nil_r in Hall. split; [now symmetry|].
           apply requests_of_none; [|exact Hleft].
           intros Hin. apply Hnone. rewrite Hq. apply in_or_app. now right.
        -- exfalso. apply Hreplay.
           rewrite Hall, removelast_app by discriminate.
           now rewrite replay_app, Hdied.
    + split; [|exact Hempty].
      rewrite Hw, Hempty in *. simpl in Ht. rewrite !app_nil_r in *.
      now rewrite observed_handled, <- Ht, <- Hq.
  - intros Hfree Hreplay.
    destruct (replay process (requests_of (puts_of sched)) s0) as [s_final|] eqn:Hsome;
      [|now elim Hreplay].
    destruct (sequential_drain s0 s_final sched Hfree Hsome) as (_ & Hproc & _ & Hw).
    split; assumption.
Qed.

(** C1, as amended.  When no sentinel was put before the first [close()] and
    the requests submitted before it can be processed one after the other
    without [process] raising, the contract of [close()] holds, whatever the
    callers and the consumer do before and after that call. *)
Theorem close_contract_sequential :
  forall (s0 : S) (before after : list (Action Req)),
    sentinel_free before = true ->
    replay process (requests_of (puts_of before)) s0 <> None ->
    close_contract process shutdown s0 before after.
Proof.
  intros s0 before after Hfree Hreplay. unfold close_contract.
  set (st1 := run before (__init__ s0)).
  set (st2 := run (before ++ CloseCall :: after) (__init__ s0)).
  pose proof (sentinel_free_puts _ _ Hfree) as Hnone.
  assert (Hst2 : consistent st2) by apply consistent_run, consistent_init.
  assert (Hun2 : unfailing st2).
  { apply unfailing_guarded_run. rewrite puts_of_app.
    change (puts_of (CloseCall :: after)) with (None :: puts_of after).
    now rewrite before_sentinel_clean. }
  assert (Hsub1 : submitted (history st1) = puts_of before) by apply submitted_init.
  assert (Hsub2 : submitted (history st2) = puts_of before ++ None :: puts_of after).
  { unfold st2. now rewrite submitted_init, puts_of_app. }
  split; [reflexivity|].
  split. { intros Halive. unfold close_return. rewrite Halive. now destruct (joining st2). }
  split.
  { set (st3 := run (drain (Datatypes.S (List.length (_requests st2)))) st2).
    rewrite run_app. fold st3.
    assert (Hst3 : consistent st3) by now apply consistent_run.
    assert (Hterm : terminated (_thread st3) = true).
    { apply sentinel_reached; [exact Hst3| |apply drain_settles; lia].
      unfold st3. rewrite submitted_run, Hsub2.
      apply in_or_app. left. apply in_or_app. right. now left. }
    assert (Hcalls : 0 < close_calls (history st3)).
    { pose proof (close_calls_run _ _ process shutdown
                    (drain (Datatypes.S (List.length (_requests st2)))) st2) as Hle.
      fold st3 in Hle. unfold st2 in Hle at 1. rewrite run_app in Hle.
      pose proof (close_called _ _ process shutdown (run before (__init__ s0)) after).
      lia. }
    pose proof (joiners_accounted st3 Hst3) as Hj.
    simpl. unfold close_return.
    destruct (joining st3) as [|j]; [simpl in Hj; lia|].
    rewrite Hterm. grown. lia. }
  split; [now apply consistent_sentinel_last|].
  intros Hret.
  pose proof (returned_after_exit st2 Hst2 Hret) as Hterm.
  pose proof (exit_by_sentinel st2 Hun2 Hterm) as Hin.
  pose proof (taken_accounted st2 Hst2) as Ht.
  rewrite (terminated_in_hand _ _ Hterm), app_nil_r in Ht.
  split; [exact Hterm|]. split; [now rewrite Ht|].
  split; [now apply exit_runs_shutdown_once|].
  split.
  - destruct (sentinel_last_split _ (handled_sentinel_last st2 Hst2) Hin) as (l1 & Heq & Hnot).
    pose proof (queue_conserved st2 Hst2) as Hq.
    rewrite Hsub2, Ht, Heq, <- app_assoc in Hq. simpl in Hq.
    apply first_sentinel_unique in Hq as [Hl1 _]; [|exact Hnone|exact Hnot].
    rewrite (all_returned st2 Hun2), observed_handled, Heq, requests_of_app.
    rewrite Hsub1, Hl1. simpl. now rewrite app_nil_r.
  - intros later.
    destruct (terminated_run _ _ process shutdown later st2 Hterm)
      as [(_ & _ & _ & _ & K & _) _].
    exact K.
Qed.

End WorkerAccounts.

Section TotalHooks.

Import Worker.

Variables Req S : Type.
Variable process : Req -> S -> option S.
Variable shutdown : S -> option S.

Hypothesis process_returns : forall (r : Req) (s : S), process r s <> None.
Hypothesis shutdown_returns : forall s : S, shutdown s <> None.

(** When neither hook can raise, the thread never dies. *)
Lemma never_died (sched : list (Action Req)) (st : State Req S) :
  _thread st <> Died -> _thread (exec process shutdown sched st) <> Died.
Proof.
  revert st. induction sched as [|a sched IH]; intros st Hst; [exact Hst|].
  simpl. apply IH.
  destruct a as [x| | | |]; simpl;
    unfold submit, close_call, close_return, put, _run_get, _run_hook; simpl;
    try exact Hst.
  - destruct (joining st); [exact Hst|].
    destruct (terminated (_thread st)); exact Hst.
  - destruct (_thread st) eqn:Hthread; try (rewrite Hthread; exact Hst).
    destruct (_requests st) as [|[r|] rest]; [rewrite Hthread; exact Hst| |];
      simpl; discriminate.
  - destruct (_thread st) eqn:Hthread; try (rewrite Hthread; exact Hst).
    + destruct (process r (hooks st)) eqn:Hproc; [simpl; discriminate|].
      now apply process_returns in Hproc.
    + destruct (shutdown (hooks st)) eqn:Hshut; [simpl; discriminate|].
      now apply shutdown_returns in Hshut.
Qed.

End TotalHooks.

(** * Further properties of the services *)

Section ServiceFacts.

Import Worker Sequential.

(** ** Player *)

Lemma replay_tones (sounds : list (list string)) (played : list (list string)) :
  replay Tones.process sounds played = Some (played ++ sounds).
Proof.
  revert played. induction sounds as [|sound sounds IH]; intros played; simpl.
  - now rewrite app_nil_r.
  - rewrite IH. now rewrite <- app_assoc.
Qed.

(** X6. Whatever the interleaving, the Player has played exactly the
    sequences it has processed, in that order, and they are the first of the
    sequences submitted: tones are never reordered, repeated or made up. *)
Theorem player_plays_in_order :
  forall (sched : list (Action (list string))),
    let st := exec Tones.process Tones.shutdown sched (__init__ []) in
    hooks st = processed (history st)
    /\ exists rest, puts_of sched = map Some (hooks st) ++ rest.
Proof.
  intros sched st.
  assert (Hplayed : hooks st = processed (history st)).
  { pose proof (hook_state_run _ _ Tones.process Tones.shutdown [] sched
                  (__init__ []) (hook_state_init _ _ _ _ [])) as Hhook.
    fold st in Hhook. unfold hook_state in Hhook. rewrite replay_tones in Hhook.
    simpl in Hhook.
    destruct (_thread st); try (injection Hhook as Hhook; now rewrite <- Hhook).
    destruct Hhook as (s & Hs & Hshut). unfold Tones.shutdown in Hshut. congruence. }
  split; [exact Hplayed|].
  assert (Hun : unfailing st).
  { apply unfailing_run; [exact player_returns | apply unfailing_init]. }
  assert (Hst : consistent st) by apply consistent_run, consistent_init.
  destruct (fifo_prefix _ _ st Hst) as [rest Hrest].
  exists rest. rewrite Hplayed, (all_returned st Hun), <- Hrest.
  symmetry. apply submitted_init.
Qed.

(** ** Animator *)

Section AnimatorFacts.

Variable Color_blend : Lights.Color -> Lights.Color -> Q -> Lights.Color.

Lemma lights_process_returns :
  forall (r : Q) (s : Lights.Channels), Lights.process Color_blend r s <> None.
Proof.
  intros r s. unfold Lights.process. destruct (negb (Qle_bool r 0)); discriminate.
Qed.

Lemma lights_shutdown_returns :
  forall s : Lights.Channels, Lights.shutdown s <> None.
Proof. intros s. discriminate. Qed.

(** What the LEDs show does not depend on what they showed before. *)
Lemma lights_process_forgets (score : Q) (a b : Lights.Channels) :
  Lights.process Color_blend score a = Lights.process Color_blend score b.
Proof. reflexivity. Qed.

Lemma replay_lights_last (scores : list Q) (score : Q) (leds : Lights.Channels) :
  replay (Lights.process Color_blend) (scores ++ [score]) leds
  = Lights.process Color_blend score leds.
Proof.
  revert leds. induction scores as [|s scores IH]; intros leds; simpl.
  - now destruct (Lights.process Color_blend score leds).
  - destruct (Lights.process Color_blend s leds) as [leds'|] eqn:Hs.
    + rewrite IH. apply lights_process_forgets.
    + now apply lights_process_returns in Hs.
Qed.

(** X7. Whatever [Color.blend] and the LED device do, raising included, and
    whatever scores were submitted in whatever interleaving: once the
    Animator's thread has finished the LEDs are off, and so they are once a
    [close()] has returned unless a hook raised (the thread died); and the
    thread dies only if one of the two can raise. *)
Theorem animator_off_unless_died :
  forall (blend : Lights.Color -> Lights.Color -> Q -> option Lights.Color)
         (update : Lights.Channels -> Lights.Channels -> bool)
         (leds0 : Lights.Channels) (sched : list (Action Q)),
    let st := exec (Driven.process blend update) (Driven.shutdown update) sched
                   (__init__ leds0) in
    (_thread st = Finished -> hooks st = Lights.rgb_off)
    /\ (0 < close_returns (history st) -> _thread st <> Died ->
        hooks st = Lights.rgb_off)
    /\ ((forall (a b : Lights.Color) (q : Q), blend a b q <> None) ->
        (forall shown pattern : Lights.Channels, update shown pattern = true) ->
        _thread st <> Died).
Proof.
  intros blend update leds0 sched st.
  assert (Hfin : _thread st = Finished -> hooks st = Lights.rgb_off).
  { intros Hthread.
    pose proof (hook_state_run _ _ (Driven.process blend update) (Driven.shutdown update)
                  leds0 sched (__init__ leds0) (hook_state_init _ _ _ _ leds0)) as Hhook.
    fold st in Hhook. unfold hook_state in Hhook. rewrite Hthread in Hhook.
    destruct Hhook as (s & _ & Hshut). unfold Driven.shutdown in Hshut.
    destruct (update s Lights.rgb_off); congruence. }
  split; [exact Hfin|]. split.
  - intros Hret Halive. apply Hfin.
    assert (Hst : consistent st) by apply consistent_run, consistent_init.
    pose proof (returned_after_exit st Hst Hret) as Hterm.
    destruct (_thread st); try discriminate; [reflexivity | now elim Halive].
  - intros Hblend Hupdate. apply never_died; [| |discriminate].
    + intros r s. unfold Driven.process.
      destruct (negb (Qle_bool r 0)); [|now rewrite Hupdate].
      destruct (blend Lights.JOY_COLOR Lights.SAD_COLOR r) eqn:Hb;
        [now rewrite Hupdate|].
      now apply Hblend in Hb.
    + intros s. unfold Driven.shutdown. now rewrite Hupdate.
Qed.

(** X8. While the Animator has not shut down, the LEDs show what the last
    processed score alone gives: earlier scores leave no trace. *)
Theorem animator_shows_last_score :
  forall (leds0 : Lights.Channels) (sched : list (Action Q))
         (earlier : list Q) (score : Q),
    let st := exec (Lights.process Color_blend) Lights.shutdown sched (__init__ leds0) in
    _thread st <> Finished ->
    processed (history st) = earlier ++ [score] ->
    forall leds : Lights.Channels,
      Lights.process Color_blend score leds = Some (hooks st).
Proof.
  intros leds0 sched earlier score st Hthread Hlast leds.
  pose proof (hook_state_run _ _ (Lights.process Color_blend) Lights.shutdown leds0
                sched (__init__ leds0) (hook_state_init _ _ _ _ leds0)) as Hhook.
  fold st in Hhook. unfold hook_state in Hhook.
  rewrite Hlast, replay_lights_last in Hhook.
  rewrite (lights_process_forgets score leds leds0).
  destruct (_thread st); try exact Hhook. now elim Hthread.
Qed.

End AnimatorFacts.

End ServiceFacts.

(** * Further properties of the Photographer *)

Section PhotoFacts.

Import Geometry Photo.

Local Open Scope string_scope.

(** [process] leaves the format, the folder, the clock, the user database
    and the permissions as they are. *)
Lemma process_preserves (message : Message) (w w' : World) :
  process message w = Some w' ->
  _format (self w') = _format (self w)
  /\ _folder (self w') = _folder (self w)
  /\ clock w' = clock w
  /\ home_of w' = home_of w
  /\ writable w' = writable w.
Proof.
  destruct message as [faces frame_size|camera]; simpl.
  - intros H. injection H as <-. repeat split.
  - unfold write.
    destruct (writable w (_make_filename w (clock w) "")); [|discriminate].
    cbn [self]. destruct (_faces (self w)) as [[|f fs] frame_size].
    + intros H. injection H as <-. repeat split.
    + destruct (scale_factors (resolution camera) frame_size) as [[sx sy]|];
        [|discriminate].
      destruct (fst (crop_loop (resolution camera) sx sy (f :: fs)));
        [|discriminate].
      cbn [writable].
      match goal with |- context [if ?c then _ else _] => destruct c end;
        [|discriminate].
      intros H. injection H as <-. repeat split.
Qed.

(** X11. A capture with no cached detections, as on a Photographer that has
    not yet received any, writes the original and nothing else; the frame
    size is not read, so the initial size (0, 0) divides nothing. *)
Theorem capture_without_detections :
  forall (w : World) (camera : Camera) (frame_size : Z * Z),
    _faces (self w) = ([], frame_size) ->
    writable w (_make_filename w (clock w) "") = true ->
    exists w' : World,
      process (Shot camera) w = Some w'
      /\ disk w' = (disk w ++ [(_make_filename w (clock w) "", Original (frame camera))])%list
      /\ self w' = self w.
Proof.
  intros w camera frame_size Hfaces Horig.
  unfold process, write. rewrite Horig. cbn [self]. rewrite Hfaces.
  eexists. split; [reflexivity|]. split; reflexivity.
Qed.

(** A cache update never raises, never touches the disk and replaces the
    cached pair wholesale: after two updates only the second is left. *)
Theorem cache_replaced_wholesale :
  forall (w : World) (faces1 faces2 : list Face) (size1 size2 : Z * Z),
    exists w1 w2 : World,
      process (Faces faces1 size1) w = Some w1
      /\ process (Faces faces2 size2) w1 = Some w2
      /\ process (Faces faces2 size2) w = Some w2
      /\ _faces (self w2) = (faces2, size2)
      /\ disk w2 = disk w.
Proof.
  intros w faces1 faces2 size1 size2.
  eexists; eexists. split; [reflexivity|]. repeat split.
Qed.

(** X12. [__init__] succeeds exactly when the format is jpeg, bmp or png and
    the font file can be loaded, and then the Photographer holds the format
    and folder it was given and an empty cache with frame size (0, 0); any
    other format fails the assertion, and a missing font fails the
    constructor whatever the format. *)
Theorem format_validated :
  forall (font_found : bool) (format folder : string),
    (forall p : Photographer,
       __init__ font_found format folder = Some p <->
       font_found = true
       /\ (format = "jpeg" \/ format = "bmp" \/ format = "png")
       /\ p = mkPhotographer ([], (0, 0)%Z) format folder)
    /\ (__init__ font_found format folder = None <->
        font_found = false
        \/ (format <> "jpeg" /\ format <> "bmp" /\ format <> "png")).
Proof.
  intros font_found format folder. unfold __init__. simpl.
  destruct (String.eqb_spec format "jpeg") as [Hj|Hj];
    [|destruct (String.eqb_spec format "bmp") as [Hb|Hb];
      [|destruct (String.eqb_spec format "png") as [Hp|Hp]]]; simpl;
    destruct font_found; split;
    try (intros p; split;
         [ intros H; try discriminate; injection H as <-; auto
         | intros (Hf & Hfmt & ->); try discriminate; try reflexivity;
           destruct Hfmt as [H|[H|H]]; contradiction ]);
    try (split; [discriminate | intros [H|(H1 & H2 & H3)];
                               [discriminate | contradiction]]);
    try (split; [auto | reflexivity]).
Qed.

(** X13. With detections cached, a frame size whose width or height is zero
    makes the capture raise (the division of line 168), however good the
    disk is. *)
Theorem zero_frame_raises :
  forall (w : World) (camera : Camera) (face : Face) (faces : list Face)
         (frame_size : Z * Z),
    _faces (self w) = (face :: faces, frame_size) ->
    fst frame_size = 0%Z \/ snd frame_size = 0%Z ->
    process (Shot camera) w = None.
Proof.
  intros w camera face faces [fw fh] Hfaces Hzero. simpl in Hzero.
  unfold process, write.
  destruct (writable w (_make_filename w (clock w) "")); [|reflexivity].
  cbn [self]. rewrite Hfaces.
  unfold scale_factors, truediv. simpl.
  destruct Hzero as [-> | ->].
  - reflexivity.
  - destruct (fw =? 0)%Z; reflexivity.
Qed.

(** *** File names *)

Lemma string_app_assoc (a b c : string) : (a ++ b) ++ c = a ++ b ++ c.
Proof. induction a as [|ch a IH]; simpl; [reflexivity | now rewrite IH]. Qed.

Lemma string_app_length (a b : string) :
  String.length (a ++ b) = (String.length a + String.length b)%nat.
Proof. induction a as [|ch a IH]; simpl; [reflexivity | now rewrite IH]. Qed.

Lemma string_app_cancel_l (p a b : string) : p ++ a = p ++ b -> a = b.
Proof.
  induction p as [|ch p IH]; simpl; [auto|]. intros H. injection H as H. auto.
Qed.

Lemma string_app_cancel_r (a b t : string) : a ++ t = b ++ t -> a = b.
Proof.
  revert b. induction a as [|ch a IH]; intros [|ch' b] H; simpl in H.
  - reflexivity.
  - exfalso. apply (f_equal String.length) in H. simpl in H.
    rewrite string_app_length in H. lia.
  - exfalso. apply (f_equal String.length) in H. simpl in H.
    rewrite string_app_length in H. lia.
  - injection H as -> H. f_equal. now apply IH.
Qed.

Lemma until_slash_app (a x : string) :
  until_slash (a ++ "/" ++ x)
  = (fst (until_slash a), snd (until_slash a) ++ "/" ++ x).
Proof.
  induction a as [|ch a IH]; [reflexivity|].
  simpl. destruct (Ascii.eqb ch "/"); [reflexivity|].
  change (a ++ String "/" x) with (a ++ "/" ++ x). rewrite IH.
  now destruct (until_slash a).
Qed.

(** Below a folder, [expanduser] only rewrites the folder. *)
Lemma expanduser_under_folder (home : string -> option string) (folder : string) :
  exists dir : string,
    forall x : string, expanduser home (folder ++ "/" ++ x) = dir ++ "/" ++ x.
Proof.
  destruct (starts_with_tilde folder) eqn:Htilde.
  - destruct folder as [|ch rest]; [discriminate|]. simpl in Htilde.
    apply Ascii.eqb_eq in Htilde. subst ch.
    destruct (home (fst (until_slash rest))) as [userhome|] eqn:Hhome.
    + exists (rstrip_slash userhome ++ snd (until_slash rest)). intros x.
      change (("~" ++ rest) ++ "/" ++ x) with (String "~" (rest ++ "/" ++ x)).
      change (String "~" rest ++ "/" ++ x) with (String "~" (rest ++ "/" ++ x)).
      unfold expanduser. rewrite until_slash_app, Hhome.
      rewrite <- string_app_assoc.
      destruct ((rstrip_slash userhome ++ snd (until_slash rest)) ++ "/" ++ x) eqn:Hp;
        [|reflexivity].
      apply (f_equal String.length) in Hp. rewrite string_app_length in Hp.
      simpl in Hp. lia.
    + exists (String "~" rest). intros x.
      change (String "~" rest ++ "/" ++ x) with (String "~" (rest ++ "/" ++ x)).
      unfold expanduser. now rewrite until_slash_app, Hhome.
  - exists folder. intros x. apply expanduser_plain.
    now rewrite starts_with_tilde_folder.
Qed.

(** X14. All the files of one Photographer land in one directory, the
    expanded folder, and two different suffixes never give the same name: the
    cropped file cannot overwrite the original. *)
Theorem filenames_distinct :
  forall w : World,
    exists dir : string,
      (forall timestamp suffix : string,
         _make_filename w timestamp suffix
         = dir ++ "/" ++ timestamp ++ suffix_part suffix ++ "." ++ _format (self w))
      /\ (forall timestamp suffix1 suffix2 : string,
            suffix1 <> suffix2 ->
            _make_filename w timestamp suffix1 <> _make_filename w timestamp suffix2).
Proof.
  intros w.
  destruct (expanduser_under_folder (home_of w) (_folder (self w))) as [dir Hdir].
  assert (Hname : forall timestamp suffix : string,
    _make_filename w timestamp suffix
    = dir ++ "/" ++ timestamp ++ suffix_part suffix ++ "." ++ _format (self w)).
  { intros timestamp suffix. rewrite <- Hdir.
    unfold _make_filename. destruct suffix; reflexivity. }
  exists dir. split; [exact Hname|].
  intros timestamp suffix1 suffix2 Hdiff Heq. apply Hdiff.
  rewrite !Hname in Heq.
  apply string_app_cancel_l in Heq. apply string_app_cancel_l in Heq.
  apply string_app_cancel_l in Heq.
  apply string_app_cancel_r in Heq.
  destruct suffix1 as [|c1 s1], suffix2 as [|c2 s2]; simpl in Heq;
    try reflexivity; try discriminate.
  now injection Heq as -> ->.
Qed.

End PhotoFacts.

(** * The log and the partial effects of a capture *)

Section TracedFacts.

Import Geometry Photo Traced.

Local Open Scope string_scope.

(** Leaving the log aside, the traced [process] is the [process] of the
    Photographer: it returns exactly when that one does, with the same
    world. *)
Theorem traced_refines :
  forall (message : Message) (e : Env),
    option_map (fun _ : unit => world (fst (Traced.process message e)))
               (snd (Traced.process message e))
    = Photo.process message (world e).
Proof.
  intros [faces frame_size|camera] e; [reflexivity|].
  unfold Traced.process, Photo.process, stopwatch, save, log, write. cbn [world fst snd].
  destruct (writable (world e) (_make_filename (world e) (clock (world e)) ""));
    cbn [world fst snd self]; [|reflexivity].
  destruct (_faces (self (world e))) as [[|f fs] frame_size]; [reflexivity|].
  destruct (scale_factors (resolution camera) frame_size) as [[sx sy]|];
    cbn [world fst snd]; [|reflexivity].
  destruct (fst (crop_loop (resolution camera) sx sy (f :: fs)));
    cbn [world fst snd writable]; [|reflexivity].
  match goal with |- context [if ?c then _ else _] => destruct c end; reflexivity.
Qed.

(** X16. Once the original could be opened it is on the disk whatever
    happens afterwards: a capture that raises in the cropping step (zero
    frame size, or a cropped file that cannot be opened) has still saved
    the original, and the disk only grows. *)
Theorem original_survives :
  forall (camera : Camera) (e : Env),
    writable (world e) (_make_filename (world e) (clock (world e)) "") = true ->
    exists more : list (string * Artifact),
      disk (world (fst (Traced.process (Shot camera) e)))
      = (disk (world e)
         ++ (_make_filename (world e) (clock (world e)) "", Original (frame camera))
            :: more)%list
      /\ (List.length more <= 1)%nat.
Proof.
  intros camera e Horig.
  unfold Traced.process, stopwatch, save, log, write. cbn [world fst snd].
  rewrite Horig. cbn [world fst snd self].
  destruct (_faces (self (world e))) as [[|f fs] frame_size].
  { exists []. split; [reflexivity | simpl; lia]. }
  destruct (scale_factors (resolution camera) frame_size) as [[sx sy]|];
    cbn [world fst snd disk].
  2: { exists []. split; [reflexivity | simpl; lia]. }
  destruct (fst (crop_loop (resolution camera) sx sy (f :: fs)));
    cbn [world fst snd writable disk].
  2: { exists []. split; [reflexivity | simpl; lia]. }
  match goal with |- context [if ?c then _ else _] => destruct c end;
    cbn [world fst snd disk].
  - eexists [_]. split; [now rewrite <- app_assoc | simpl; lia].
  - exists []. split; [reflexivity | simpl; lia].
Qed.

(** X17. Every stopwatch that starts also ends, also when its body raises:
    the lines one call of [process] adds to the log are pairs of a start
    line and the done line of the same message. *)
Theorem log_bracketed :
  forall (message : Message) (e : Env),
    exists lines : list LogLine,
      logged (fst (Traced.process message e)) = (logged e ++ lines)%list
      /\ bracketed lines = true.
Proof.
  intros [faces frame_size|camera] e.
  { exists []. split; [simpl; now rewrite app_nil_r | reflexivity]. }
  unfold Traced.process, stopwatch, save, log, write. cbn [world fst snd logged].
  destruct (writable (world e) (_make_filename (world e) (clock (world e)) ""));
    cbn [world fst snd logged self].
  2: { eexists [_; _; _; _]. split; [now rewrite <- !app_assoc|].
       simpl. now rewrite !String.eqb_refl. }
  destruct (_faces (self (world e))) as [[|f fs] frame_size].
  { eexists [_; _; _; _]. split; [now rewrite <- !app_assoc|].
    simpl. now rewrite !String.eqb_refl. }
  assert (Hsix : forall (base : list LogLine) (a b c : string),
    exists lines : list LogLine,
      ((((((base ++ [info_start a]) ++ [info_done a]) ++ [info_start b])
          ++ [info_done b]) ++ [info_start c]) ++ [info_done c])%list
      = (base ++ lines)%list
      /\ bracketed lines = true).
  { intros base a b c.
    exists [info_start a; info_done a; info_start b; info_done b;
            info_start c; info_done c].
    split; [now rewrite <- !app_assoc|]. simpl. now rewrite !String.eqb_refl. }
  destruct (scale_factors (resolution camera) frame_size) as [[sx sy]|];
    cbn [world fst snd logged]; [|now apply Hsix].
  destruct (fst (crop_loop (resolution camera) sx sy (f :: fs)));
    cbn [world fst snd logged writable]; [|now apply Hsix].
  match goal with |- context [if ?c then _ else _] => destruct c end;
    cbn [world fst snd logged]; now apply Hsix.
Qed.

End TracedFacts.

(** * Drawing *)

Section DrawFacts.

Import Geometry Photo Draw.

Lemma range_length (a b : Z) : List.length (range a b) = Z.to_nat (b - a).
Proof. unfold range. now rewrite length_map, length_seq. Qed.

Lemma range_members (a b i : Z) : In i (range a b) <-> (a <= i < b)%Z.
Proof.
  unfold range. rewrite in_map_iff. split.
  - intros (k & <- & Hk). apply in_seq in Hk. lia.
  - intros Hi. exists (Z.to_nat (i - a)). split; [lia|]. apply in_seq. lia.
Qed.

Lemma odd_border_bounds (k : Z) :
  ((2 * k + 1) mod 2 = 1
   /\ - (2 * k + 1) / 2 = - (k + 1)
   /\ (2 * k + 1) / 2 + 1 = k + 1)%Z.
Proof.
  repeat split.
  - symmetry. apply (Z.mod_unique_pos _ _ k); lia.
  - symmetry. apply (Z.div_unique_pos _ _ _ 1); lia.
  - rewrite <- (Z.div_unique_pos (2 * k + 1) 2 k 1); lia.
Qed.

(** X18. For an odd border [2k+1], [draw_rectangle] draws [2k+2] rectangles,
    one more than the border is wide, at the offsets from [-(k+1)] to [k]:
    [k+1] of them outside the given rectangle and only [k] inside, so the
    stroke is not centred on it. *)
Theorem draw_rectangle_strokes :
  forall (x0 y0 x1 y1 : Q) (k : Z) (fill outline : option Paint),
    (0 <= k)%Z ->
    draw_rectangle x0 y0 x1 y1 (2 * k + 1) fill outline
    = Some (map (fun i : Z =>
                   rectangle (x0 + inject_Z i, y0 + inject_Z i,
                              x1 - inject_Z i, y1 - inject_Z i)%Q fill outline)
                (range (- (k + 1)) (k + 1)))
    /\ List.length (range (- (k + 1)) (k + 1)) = Z.to_nat (2 * k + 2)
    /\ In (- (k + 1))%Z (range (- (k + 1)) (k + 1))
    /\ ~ In (k + 1)%Z (range (- (k + 1)) (k + 1)).
Proof.
  intros x0 y0 x1 y1 k fill outline Hk.
  destruct (odd_border_bounds k) as (Hmod & Hlow & Hhigh).
  unfold draw_rectangle. rewrite Hmod, Hlow, Hhigh, Z.eqb_refl.
  split; [reflexivity|]. split.
  - rewrite range_length. lia.
  - rewrite !range_members. lia.
Qed.

(** X19. An even border fails the assertion and nothing is drawn; a negative
    odd border passes it and draws nothing either, without any error. *)
Theorem draw_rectangle_rejects :
  forall (x0 y0 x1 y1 : Q) (border : Z) (fill outline : option Paint),
    ((border mod 2 = 0)%Z -> draw_rectangle x0 y0 x1 y1 border fill outline = None)
    /\ ((border < 0)%Z -> (border mod 2 = 1)%Z ->
        draw_rectangle x0 y0 x1 y1 border fill outline = Some []).
Proof.
  intros x0 y0 x1 y1 border fill outline. unfold draw_rectangle. split.
  - intros ->. reflexivity.
  - intros Hneg Hodd. rewrite Hodd, Z.eqb_refl.
    assert (Hempty : range (- border / 2) (border / 2 + 1) = []).
    { apply length_zero_iff_nil. rewrite range_length.
      assert (border / 2 < 0)%Z by (apply Z.div_lt_upper_bound; lia).
      assert (0 <= - border / 2)%Z by (apply Z.div_pos; lia).
      lia. }
    now rewrite Hempty.
Qed.

Lemma draw_rectangle_three (x0 y0 x1 y1 : Q) (fill outline : option Paint) :
  draw_rectangle x0 y0 x1 y1 3 fill outline
  = Some (map (fun i : Z =>
                 rectangle (x0 + inject_Z i, y0 + inject_Z i,
                            x1 - inject_Z i, y1 - inject_Z i)%Q fill outline)
              [-2; -1; 0; 1]%Z).
Proof. reflexivity. Qed.

Section FaceLabel.

Variable getsize : string -> Q * Q.
Variable joy_text : Q -> string.

(** X20. [_draw_face] never fails (its borders are 3): it draws four
    outlined rectangles for the frame, four filled ones for the label strip
    and one text; and the frame rectangle at offset 0 is exactly the box the
    face is cropped to. *)
Theorem draw_face_ops :
  forall (face : Face) (scale_x scale_y : Q) (image_size : Z * Z),
    exists (frame strip : list DrawOp) (label : DrawOp) (b : Box),
      _draw_face getsize joy_text face scale_x scale_y
      = Some (frame ++ strip ++ [label])
      /\ List.length frame = 4
      /\ List.length strip = 4
      /\ Forall (fun op => exists xy, op = rectangle xy None (Some white)) frame
      /\ Forall (fun op => exists xy, op = rectangle xy (Some white) (Some white)) strip
      /\ label = text (match scale_bounding_box (bounding_box face) scale_x scale_y with
                       | (x, y, _, height) => (x + 1 + 3, y + height + 1 + 3)%Q
                       end)
                      (joy_text (joy_score face)) black
      /\ In (rectangle b None (Some white)) frame
      /\ box_eq b (crop_corners image_size scale_x scale_y face).
Proof.
  intros [[[[x y] w] h] score] sx sy image_size.
  unfold _draw_face, crop_corners.
  cbn [scale_bounding_box bounding_box joy_score bounding_extent_to_corners].
  rewrite !draw_rectangle_three.
  do 4 eexists. split; [reflexivity|].
  split; [reflexivity|]. split; [reflexivity|].
  split; [repeat constructor; eexists; reflexivity|].
  split; [repeat constructor; eexists; reflexivity|].
  split; [reflexivity|].
  split; [right; right; left; reflexivity|].
  simpl. repeat split; ring.
Qed.

End FaceLabel.

End DrawFacts.

(** * The capture loop *)

Section LoopFacts.

Import Worker Sequential Photo Loop.

Lemma triggering_cons (result : Result) (results : list Result) :
  triggering (result :: results)
  = match fst result with
    | [] => triggering results
    | _ :: _ => result :: triggering results
    end.
Proof. unfold triggering. simpl. now destruct (fst result). Qed.

(** X21. For every result with faces the loop sends one beep to the Player
    and, to the Photographer, the cache update followed by the capture
    trigger, then sleeps 600 seconds; a result without faces sends nothing
    and costs no sleep; the consumers are not touched. *)
Theorem capture_loop_dispatch :
  forall (camera : Camera) (results : list Result) (rig : Rig),
    let rig' := capture_loop camera results rig in
    _requests (photographer rig')
    = _requests (photographer rig) ++ map Some (messages camera results)
    /\ _requests (player rig')
       = _requests (player rig)
         ++ map (fun _ : Result => Some BEEP_SOUND) (triggering results)
    /\ slept rig'
       = (slept rig + SLEEP_SECONDS * Z.of_nat (List.length (triggering results)))%Z
    /\ _thread (photographer rig') = _thread (photographer rig)
    /\ hooks (photographer rig') = hooks (photographer rig)
    /\ _thread (player rig') = _thread (player rig)
    /\ hooks (player rig') = hooks (player rig).
Proof.
  intros camera results. induction results as [|[faces frame_size] results IH];
    intros rig rig'.
  - unfold rig'. simpl. rewrite !app_nil_r. repeat split. now rewrite Z.add_0_r.
  - unfold rig', capture_loop. simpl fold_left.
    specialize (IH (cycle camera rig (faces, frame_size))).
    unfold capture_loop in IH. cbv zeta in IH.
    destruct IH as (A1 & A2 & A3 & A4 & A5 & A6 & A7).
    rewrite A1, A2, A3, A4, A5, A6, A7. clear A1 A2 A3 A4 A5 A6 A7.
    unfold messages. rewrite triggering_cons.
    unfold cycle. simpl fst. destruct faces as [|face faces].
    + repeat split.
    + cbn -[Z.mul Z.add Z.of_nat]. rewrite <- !app_assoc. cbn -[Z.mul Z.add Z.of_nat].
      repeat split. rewrite Nat2Z.inj_succ. lia.
Qed.

Lemma scale_factors_some (image_size frame_size : Z * Z) :
  fst frame_size <> 0%Z -> snd frame_size <> 0%Z ->
  exists sx sy : Q, scale_factors image_size frame_size = Some (sx, sy).
Proof.
  intros Hw Hh. unfold scale_factors, truediv.
  destruct (Z.eqb_spec (fst frame_size) 0); [contradiction|].
  destruct (Z.eqb_spec (snd frame_size) 0); [contradiction|].
  eexists; eexists. reflexivity.
Qed.

(** The messages of the loop, processed one after the other on a working
    disk. *)
Lemma replay_messages (camera : Camera) (results : list Result) (w : World) :
  (forall name : string, writable w name = true) ->
  Forall (fun result : Result =>
            fst (snd result) <> 0%Z /\ snd (snd result) <> 0%Z)
         (triggering results) ->
  exists w' : World,
    replay Photo.process (messages camera results) w = Some w'
    /\ map snd (disk w')
       = map snd (disk w) ++ flat_map (artifacts_of camera) (triggering results).
Proof.
  revert w. induction results as [|[faces frame_size] results IH]; intros w Hdisk Hsizes.
  - exists w. split; [reflexivity | simpl; now rewrite app_nil_r].
  - unfold messages in *. rewrite triggering_cons in *. simpl fst in *.
    destruct faces as [|face faces]; [now apply IH|].
    inversion Hsizes as [|result rest [Hfw Hfh] Hrest]; subst.
    simpl in Hfw, Hfh.
    destruct (scale_factors_some (resolution camera) frame_size Hfw Hfh)
      as (sx & sy & Hscale).
    destruct (exists_last (l := face :: faces)) as (init & final & Hlast);
      [discriminate|].
    set (w1 := mkWorld (mkPhotographer (face :: faces, frame_size)
                                       (_format (self w)) (_folder (self w)))
                       (clock w) (home_of w) (writable w) (disk w)).
    destruct (shoot_writes_last_crop w1 camera init final frame_size sx sy)
      as (w2 & Hshot & Hdisk2); try (apply Hdisk); try assumption.
    { unfold w1. simpl. now rewrite Hlast. }
    destruct (process_preserves _ _ _ Hshot) as (_ & _ & _ & _ & Hwritable).
    destruct (IH w2) as (w' & Hreplay & Hdisk').
    { intros name. rewrite Hwritable. apply Hdisk. }
    { exact Hrest. }
    exists w'. split.
    + cbn [flat_map app fst snd replay].
      change (Photo.process (Faces (face :: faces) frame_size) w) with (Some w1).
      cbn iota. rewrite Hshot. exact Hreplay.
    + rewrite Hdisk', Hdisk2, map_app, <- app_assoc. unfold w1 at 1. cbn [disk].
      f_equal. cbn [flat_map]. f_equal.
      unfold artifacts_of. cbn [fst snd]. rewrite Hscale, Hlast, last_last.
      reflexivity.
Qed.

(** X22. On a working disk and with frame sizes that are not zero, whatever
    the interleaving of the loop with the Photographer's consumer, once the
    consumer has had its turns the disk holds, for every result with faces
    and in their order, the original followed by the crop of the last face
    of that very result: a capture is never cropped with the detections of
    another cycle, and the thread is still alive. *)
Theorem captures_use_own_detections :
  forall (camera : Camera) (results : list Result) (w0 : World)
         (sched : list (Action Message)),
    (forall name : string, writable w0 name = true) ->
    Forall (fun result : Result =>
              fst (snd result) <> 0%Z /\ snd (snd result) <> 0%Z)
           (triggering results) ->
    sentinel_free sched = true ->
    requests_of (puts_of sched) = messages camera results ->
    let st := exec Photo.process Photo.shutdown sched (Worker.__init__ w0) in
    let st' := exec Photo.process Photo.shutdown
                    (drain (Datatypes.S (List.length (_requests st)))) st in
    map snd (disk (hooks st'))
    = map snd (disk w0) ++ flat_map (artifacts_of camera) (triggering results)
    /\ processed (history st') = messages camera results
    /\ _thread st' = Waiting
    /\ _requests st' = [].
Proof.
  intros camera results w0 sched Hdisk Hsizes Hfree Hputs st st'.
  destruct (replay_messages camera results w0 Hdisk Hsizes) as (w' & Hreplay & Hdisk').
  rewrite <- Hputs in Hreplay.
  destruct (sequential_drain _ _ Photo.process Photo.shutdown w0 w' sched Hfree Hreplay)
    as (Hhooks & Hprocessed & Hqueue & Hthread).
  fold st in Hhooks, Hprocessed, Hqueue, Hthread.
  fold st' in Hhooks, Hprocessed, Hqueue, Hthread.
  rewrite Hhooks. repeat split; try assumption. now rewrite Hprocessed.
Qed.

(** X23. Whenever [main] returns, it returns 0: after a normal end, after a
    keyboard interrupt, and also after an exception of the capture loop,
    which is logged and shown by the red blink; only an exception that is
    not an [Exception], or a failure of the handler itself, leaves [main]
    without a status. *)
Theorem main_exit_status :
  forall (ending : Ending) (leds_open : bool),
    (forall code : Z, status (main ending leds_open) = Some code -> code = 0%Z)
    /\ (blinked_red (main ending leds_open) = true
        <-> (exists what, ending = exception what) /\ leds_open = true)
    /\ (exception_logged (main ending leds_open) = true
        <-> exists what, ending = exception what)
    /\ (status (main ending leds_open) = None
        <-> (exists what, ending = base_exception what)
            \/ ((exists what, ending = exception what) /\ leds_open = false)).
Proof.
  intros ending leds_open.
  destruct ending as [| |what|what], leds_open; simpl;
    (split; [intros code H; now (discriminate || (injection H as <-))|]);
    repeat split; try discriminate; try tauto; eauto;
    try (intros [? H]; discriminate);
    try (intros [[? H] ?]; discriminate);
    try (intros [[? H]|[[? H] ?]]; discriminate).
Qed.

End LoopFacts.

(** * The further properties at examples *)

Section FurtherInstances.

Import Worker Sequential.

Local Open Scope string_scope.

(** X5 at the Player: the four sequences of the overload run. *)
Lemma sequential_result_overload :
  let st := exec Tones.process Tones.shutdown Scenarios.overload (__init__ []) in
  let st' := exec Tones.process Tones.shutdown
                  (drain (Datatypes.S (List.length (_requests st)))) st in
  hooks st' = [["E6q"; "C6q"]; ["C5q"]; ["E5q"]; ["C6q"]]
  /\ processed (history st') = requests_of (puts_of Scenarios.overload)
  /\ _requests st' = []
  /\ _thread st' = Waiting.
Proof.
  exact (sequential_result (list string) (list (list string))
           Tones.process Tones.shutdown []
           [["E6q"; "C6q"]; ["C5q"]; ["E5q"]; ["C6q"]]
           Scenarios.overload eq_refl eq_refl).
Defined.

(** X8 at three scores: the LEDs show the blend for the last one, 1/2. *)
Lemma animator_shows_last_score_three :
  Lights.process Lights.blend (1 # 2)%Q (Lights.rgb_on Lights.JOY_COLOR)
  = Some (hooks (exec (Lights.process Lights.blend) Lights.shutdown
                      Runs.three_scores (__init__ Lights.rgb_off))).
Proof.
  apply (animator_shows_last_score Lights.blend Lights.rgb_off Runs.three_scores
           [(9 # 10)%Q; 0%Q] (1 # 2)%Q).
  - discriminate.
  - reflexivity.
Defined.

(** X11 at a Photographer fresh from [__init__]. *)
Lemma capture_without_detections_fresh :
  exists w' : Photo.World,
    Photo.process (Photo.Shot (FaceCap.camera "raw"))
                  (Photo.fresh FaceCap.photographer "2024-01-01_00.00.00")
    = Some w'
    /\ Photo.disk w'
       = [("./captures/2024-01-01_00.00.00.jpeg", Photo.Original "raw")]
    /\ Photo.self w' = FaceCap.photographer.
Proof.
  exact (capture_without_detections
           (Photo.fresh FaceCap.photographer "2024-01-01_00.00.00")
           (FaceCap.camera "raw") (0, 0)%Z eq_refl eq_refl).
Defined.

(** X13 at a cached frame of width zero. *)
Lemma zero_frame_raises_example :
  Photo.process (Photo.Shot (FaceCap.camera "raw")) Runs.zero_frame_world = None.
Proof.
  exact (zero_frame_raises Runs.zero_frame_world (FaceCap.camera "raw")
           FaceCap.scenario_face [] (0, 240)%Z eq_refl (or_introl eq_refl)).
Defined.

(** X16 at the same world: the capture raises, the original is saved. *)
Lemma original_survives_zero_frame :
  snd (Traced.process (Photo.Shot (FaceCap.camera "raw"))
                      (Traced.mkEnv Runs.zero_frame_world [])) = None
  /\ exists more : list (string * Photo.Artifact),
       Photo.disk (Traced.world
                     (fst (Traced.process (Photo.Shot (FaceCap.camera "raw"))
                                          (Traced.mkEnv Runs.zero_frame_world []))))
       = ("./captures/2024-01-01_00.00.00.jpeg", Photo.Original "raw") :: more
       /\ (List.length more <= 1)%nat.
Proof.
  split; [reflexivity|].
  exact (original_survives (FaceCap.camera "raw")
           (Traced.mkEnv Runs.zero_frame_world []) eq_refl).
Defined.

(** X18 at the border 3 of [_draw_face]: four rectangles, at -2, -1, 0, 1. *)
Lemma draw_rectangle_strokes_three :
  Draw.draw_rectangle 0 0 10 10 3 None (Some Draw.white)
  = Some (map (fun i : Z =>
                 Draw.rectangle (0 + inject_Z i, 0 + inject_Z i,
                                 10 - inject_Z i, 10 - inject_Z i)%Q
                                None (Some Draw.white))
              (Draw.range (-2) 2))
  /\ List.length (Draw.range (-2) 2) = 4%nat
  /\ In (-2)%Z (Draw.range (-2) 2)
  /\ ~ In 2%Z (Draw.range (-2) 2).
Proof.
  exact (draw_rectangle_strokes 0 0 10 10 1 None (Some Draw.white) ltac:(lia)).
Defined.

(** X22 at three results, the second without faces, with the consumer
    running in between: two originals, and the crops of the one face of the
    first result and of the second face of the third. *)
Lemma captures_use_own_detections_three :
  let st := exec Photo.process Photo.shutdown Runs.loop_with_consumer
                 (__init__ (Photo.fresh FaceCap.photographer "2024-01-01_00.00.00")) in
  let st' := exec Photo.process Photo.shutdown
                  (drain (Datatypes.S (List.length (_requests st)))) st in
  map snd (Photo.disk (hooks st'))
  = (map snd (Photo.disk (Photo.fresh FaceCap.photographer "2024-01-01_00.00.00"))
     ++ flat_map (Loop.artifacts_of (FaceCap.camera ""))
                 (Loop.triggering Runs.three_results))%list
  /\ processed (history st') = Loop.messages (FaceCap.camera "") Runs.three_results
  /\ _thread st' = Waiting
  /\ _requests st' = [].
Proof.
  apply (captures_use_own_detections (FaceCap.camera "") Runs.three_results
           (Photo.fresh FaceCap.photographer "2024-01-01_00.00.00")
           Runs.loop_with_consumer).
  - intros name. reflexivity.
  - repeat constructor; discriminate.
  - reflexivity.
  - reflexivity.
Defined.

(** C2, as stated, fails: the captures folder is missing, the capture
    raises and kills the thread, and the cache update submitted behind it
    never reaches [process], whatever turns the consumer is given. *)
Lemma fifo_contract_fails_when_process_raises :
  ~ fifo_contract Photo.process Photo.shutdown
      (FaceCap.missing_folder "2024-01-01_00.00.00") Scenarios.shoot_then_update.
Proof.
  unfold fifo_contract. intros (_ & _ & Hall & _).
  vm_compute in Hall. discriminate.
Qed.

(** What that run looks like once the consumer has had its turns. *)
Lemma drain_after_raise_run :
  let st := exec Photo.process Photo.shutdown Scenarios.shoot_then_update
                 (__init__ (FaceCap.missing_folder "2024-01-01_00.00.00")) in
  let st' := exec Photo.process Photo.shutdown
                  (drain (Datatypes.S (List.length (_requests st)))) st in
  _thread st' = Died
  /\ observed (history st') = [Photo.Shot (FaceCap.camera "")]
  /\ processed (history st') = []
  /\ _requests st'
     = [Some (Photo.Faces [FaceCap.scenario_face] FaceCap.scenario_frame)].
Proof. vm_compute. repeat split. Qed.

(** C2 also fails behind a [None] passed to [submit], although no hook
    raises: the score submitted after it is never processed. *)
Lemma fifo_contract_fails_after_submit_none :
  ~ fifo_contract (Lights.process Lights.blend) Lights.shutdown Lights.rgb_off
      Scenarios.none_then_score.
Proof.
  unfold fifo_contract. intros (_ & _ & Hall & _).
  vm_compute in Hall. discriminate.
Qed.

(** C2, as amended, at the Photographer with its folder in place: the four
    messages of the control thread reach [process], in order. *)
Lemma fifo_unless_raise_photographer :
  sentinel_free Runs.loop_with_consumer = true
  /\ replay Photo.process
            (removelast (requests_of (puts_of Runs.loop_with_consumer)))
            (Photo.fresh FaceCap.photographer "2024-01-01_00.00.00") <> None
  /\ fifo_contract Photo.process Photo.shutdown
                   (Photo.fresh FaceCap.photographer "2024-01-01_00.00.00")
                   Runs.loop_with_consumer.
Proof.
  split; [reflexivity|].
  split; [intros H; vm_compute in H; discriminate|].
  pose proof (fifo_unless_raise Photo.Message Photo.World Photo.process Photo.shutdown
                (Photo.fresh FaceCap.photographer "2024-01-01_00.00.00")
                Runs.loop_with_consumer) as (_ & _ & _ & Hcontract & _).
  apply Hcontract; [reflexivity|].
  intros H. vm_compute in H. discriminate.
Defined.

(** C1, as amended, at the Photographer with its folder in place: a cache
    update and a capture submitted before [close()], the first already in
    the consumer's hands. *)
Lemma close_contract_sequential_photographer :
  sentinel_free Runs.update_and_shot = true
  /\ replay Photo.process (requests_of (puts_of Runs.update_and_shot))
            (Photo.fresh FaceCap.photographer "2024-01-01_00.00.00") <> None
  /\ close_contract Photo.process Photo.shutdown
                    (Photo.fresh FaceCap.photographer "2024-01-01_00.00.00")
                    Runs.update_and_shot Runs.finish_and_return.
Proof.
  split; [reflexivity|].
  split; [intros H; vm_compute in H; discriminate|].
  apply (close_contract_sequential Photo.Message Photo.World Photo.process
           Photo.shutdown).
  - reflexivity.
  - intros H. vm_compute in H. discriminate.
Defined.

(** What that run looks like: [close()] has returned, [shutdown] ran once,
    and both messages were processed. *)
Lemma close_after_work_run :
  let st := exec Photo.process Photo.shutdown
                 (Runs.update_and_shot ++ CloseCall :: Runs.finish_and_return)
                 (__init__ (Photo.fresh FaceCap.photographer "2024-01-01_00.00.00")) in
  _thread st = Finished
  /\ close_returns (history st) = 1
  /\ shutdown_calls (history st) = 1
  /\ processed (history st) = requests_of (puts_of Runs.update_and_shot)
  /\ _requests st = [].
Proof. vm_compute. repeat split. Qed.

(** X1 at that run of the Photographer: the world the hooks hold is the one
    the two messages and then [shutdown] make of the fresh one. *)
Lemma hooks_are_replay_photographer :
  let w := Photo.fresh FaceCap.photographer "2024-01-01_00.00.00" in
  let st := exec Photo.process Photo.shutdown
                 (Runs.update_and_shot ++ CloseCall :: Runs.finish_and_return)
                 (__init__ w) in
  _thread st <> Died
  /\ exists s, replay Photo.process (processed (history st)) w = Some s
               /\ Photo.shutdown s = Some (hooks st).
Proof.
  intros w st.
  assert (Halive : _thread st <> Died) by discriminate.
  split; [exact Halive|].
  pose proof (hooks_are_replay Photo.Message Photo.World Photo.process Photo.shutdown
                w (Runs.update_and_shot ++ CloseCall :: Runs.finish_and_return)
                Halive) as [_ Hfin].
  apply Hfin. reflexivity.
Defined.

(** X7 on a device that never fails: two scores and a [close()], worked
    through; the LEDs are off. *)
Lemma animator_off_unless_died_scores :
  let st := exec (Driven.process (fun a b q => Some (Lights.blend a b q))
                                 (fun _ _ => true))
                 (Driven.shutdown (fun _ _ => true))
                 Runs.scores_and_close (__init__ Lights.rgb_off) in
  0 < close_returns (history st)
  /\ _thread st <> Died
  /\ hooks st = Lights.rgb_off.
Proof.
  intros st.
  assert (Hret : 0 < close_returns (history st)) by (vm_compute; apply le_n).
  assert (Halive : _thread st <> Died) by discriminate.
  split; [exact Hret|]. split; [exact Halive|].
  pose proof (animator_off_unless_died (fun a b q => Some (Lights.blend a b q))
                (fun _ _ => true) Lights.rgb_off Runs.scores_and_close)
    as (_ & Hoff & _).
  exact (Hoff Hret Halive).
Defined.

(** On a device that fails when told to switch off, the same run ends with
    the thread dead: [close()] returns although [shutdown] never ran, and
    the score 0 was taken but never processed. *)
Lemma animator_dies_on_failing_device :
  let update := fun (_ pattern : Lights.Channels) =>
                  match pattern with Lights.rgb_off => false | _ => true end in
  let st := exec (Driven.process (fun a b q => Some (Lights.blend a b q)) update)
                 (Driven.shutdown update)
                 Runs.scores_and_close (__init__ Lights.rgb_off) in
  _thread st = Died
  /\ close_returns (history st) = 1
  /\ shutdown_calls (history st) = 0
  /\ List.length (processed (history st)) = 1
  /\ List.length (observed (history st)) = 2.
Proof. vm_compute. repeat split. Qed.

End FurtherInstances.
